(** * LyX hotkey extension: configuration parser and key-sequence recognizer

    A shallow embedding of
      - [lyx-hotkey-extension/lyx-parser.js]  (class [LyXConfigParser]) and
      - [lyx-hotkey-extension/core/key-sequence-handler.js]
        (class [KeySequenceHandler]),
    followed by the properties of the design specification that concern
    them.

    JavaScript strings are modelled by [string]; the case conversions and
    the white-space class act on the ASCII range, every other byte is left
    alone.  A JavaScript [Map] is modelled by an association list in
    insertion order with unique keys.  The look-up of a name in an object
    literal reads the properties written in the literal; the names that
    every object inherits are listed in [JsObject]. *)

From Stdlib Require Import Bool Arith List Lia ZArith.
From Stdlib Require Import Strings.Ascii Strings.String.
Import ListNotations.

Local Open Scope list_scope.
Local Open Scope string_scope.

(* ================================================================== *)
(** ** String primitives of the host language *)
(* ================================================================== *)

Module JsString.

Definition is_upper (c : ascii) : bool :=
  let n := nat_of_ascii c in ((65 <=? n) && (n <=? 90))%nat.

Definition is_lower (c : ascii) : bool :=
  let n := nat_of_ascii c in ((97 <=? n) && (n <=? 122))%nat.

(** White space as [\s] and [trim] see it: TAB, LF, VT, FF, CR, SPACE. *)
Definition is_space (c : ascii) : bool :=
  let n := nat_of_ascii c in (((9 <=? n) && (n <=? 13)) || (n =? 32))%nat.

Definition lower_char (c : ascii) : ascii :=
  if is_upper c then ascii_of_nat (nat_of_ascii c + 32) else c.

Definition upper_char (c : ascii) : ascii :=
  if is_lower c then ascii_of_nat (nat_of_ascii c - 32) else c.

Fixpoint map_chars (f : ascii -> ascii) (s : string) : string :=
  match s with
  | EmptyString => EmptyString
  | String c r => String (f c) (map_chars f r)
  end.

(** [s.toLowerCase()] and [s.toUpperCase()] *)
Definition toLowerCase : string -> string := map_chars lower_char.
Definition toUpperCase : string -> string := map_chars upper_char.

(** [s.startsWith(p)] *)
Fixpoint startsWith (s p : string) {struct p} : bool :=
  match p with
  | EmptyString => true
  | String pc pr =>
      match s with
      | EmptyString => false
      | String sc sr => Ascii.eqb sc pc && startsWith sr pr
      end
  end.

(** [s.includes(p)], that is [s.indexOf(p) >= 0] *)
Fixpoint includes (s p : string) : bool :=
  startsWith s p ||
  match s with
  | EmptyString => false
  | String _ r => includes r p
  end.

(** [s.substring(n)] *)
Fixpoint substring_from (n : nat) (s : string) : string :=
  match n, s with
  | O, _ => s
  | S _, EmptyString => EmptyString
  | S m, String _ r => substring_from m r
  end.

(** [s.replace(/p/g, r)] for a literal, non-empty pattern [p]: the
    occurrences are taken leftmost first and do not overlap.  [skip]
    counts the characters of a match that are still to be passed over. *)
Fixpoint replace_go (p r : string) (skip : nat) (s : string) : string :=
  match s with
  | EmptyString => EmptyString
  | String c rest =>
      match skip with
      | S k => replace_go p r k rest
      | O =>
          if startsWith s p
          then r ++ replace_go p r (String.length p - 1) rest
          else String c (replace_go p r 0 rest)
      end
  end.

Definition replaceAll (p r s : string) : string := replace_go p r 0 s.

(** [s.replace(/\+([a-z])$/, '+$1')]: a final [+] and lower-case letter
    are put back as they were found. *)
Fixpoint replace_final_plus_letter (s : string) : string :=
  match s with
  | EmptyString => EmptyString
  | String c rest =>
      match rest with
      | String l EmptyString =>
          if Ascii.eqb c "+"%char && is_lower l
          then "+" ++ String l EmptyString
          else String c (replace_final_plus_letter rest)
      | _ => String c (replace_final_plus_letter rest)
      end
  end.

Fixpoint drop_spaces (s : string) : string :=
  match s with
  | EmptyString => EmptyString
  | String c r => if is_space c then drop_spaces r else s
  end.

Fixpoint rev_string (acc s : string) : string :=
  match s with
  | EmptyString => acc
  | String c r => rev_string (String c acc) r
  end.

(** [s.trim()] *)
Definition trim (s : string) : string :=
  rev_string "" (drop_spaces (rev_string "" (drop_spaces s))).

(** [s.split('\n')] *)
Fixpoint split_lines_go (cur : string) (s : string) : list string :=
  match s with
  | EmptyString => [rev_string "" cur]
  | String c r =>
      if Ascii.eqb c "010"%char
      then rev_string "" cur :: split_lines_go "" r
      else split_lines_go (String c cur) r
  end.

Definition split_lines (s : string) : list string := split_lines_go "" s.

(** [parts.join(sep)] *)
Fixpoint join (sep : string) (parts : list string) : string :=
  match parts with
  | [] => ""
  | [p] => p
  | p :: rest => p ++ sep ++ join sep rest
  end.

End JsString.

Import JsString.

(** The double quote, and a couple of text builders used for literals. *)
Definition dq : string := String "034"%char "".
Definition nl : string := String "010"%char "".
Definition utf8 (bytes : list nat) : string :=
  fold_right (fun b s => String (ascii_of_nat b) s) "" bytes.

(* ================================================================== *)
(** ** Actions and mapping tables *)
(* ================================================================== *)

(** The action literals built by [convertCommand]: an object with a [type]
    field and the fields that go with it. *)
Inductive action : Type :=
| Insert (text : string)
| Wrap (before after : string)
| Navigation (act : string)
| Selection (act : string)
| Delete (act : string)
| Clipboard (act : string)
| Edit (act : string).

(** A [Map] from key sequences to actions, in insertion order. *)
Definition table : Type := list (string * action).

Module JsMap.

(** [m.get(k)]; [None] stands for [undefined]. *)
Fixpoint get (k : string) (m : table) : option action :=
  match m with
  | [] => None
  | (k', v) :: rest => if String.eqb k' k then Some v else get k rest
  end.

(** [m.set(k, v)]: an existing key keeps its place, a new one goes last. *)
Fixpoint set (k : string) (v : action) (m : table) : table :=
  match m with
  | [] => [(k, v)]
  | (k', v') :: rest =>
      if String.eqb k' k then (k', v) :: rest else (k', v') :: set k v rest
  end.

(** [m.keys()] *)
Definition keys (m : table) : list string := map fst m.

(** [m.has(k)] *)
Definition has (k : string) (m : table) : bool :=
  match get k m with Some _ => true | None => false end.

End JsMap.

(** A [Set] of strings, in insertion order. *)
Module JsSet.

Definition t : Type := list string.

Definition has (x : string) (s : t) : bool := existsb (String.eqb x) s.

Definition add (x : string) (s : t) : t :=
  if has x s then s else (s ++ [x])%list.

End JsSet.

(** What an object literal answers to besides its own properties: the
    members of [Object.prototype].  [obj[name]] for one of these names
    is a function, or the prototype itself for [__proto__], and not
    [undefined]; the look-ups below read the own properties of a literal,
    and a property proved of them for a name that comes from outside
    says that the name is none of these. *)
Module JsObject.

Definition Object_prototype : list string :=
  [ "constructor"; "toString"; "toLocaleString"; "valueOf";
    "hasOwnProperty"; "isPrototypeOf"; "propertyIsEnumerable";
    "__defineGetter__"; "__defineSetter__"; "__lookupGetter__";
    "__lookupSetter__"; "__proto__" ].

Definition inherited (name : string) : bool :=
  existsb (String.eqb name) Object_prototype.

End JsObject.

(* ================================================================== *)
(** ** LyXConfigParser  (lyx-parser.js) *)
(* ================================================================== *)

Module LyXConfigParser.

(** The [options] argument.  [None] is an absent property. *)
Record options : Type := mkOptions {
  overrideSystemShortcuts : option bool;
  mapMetaToCtrl : option bool
}.

Definition no_options : options := mkOptions None None.

(** [{ originalKey, command }] *)
Record binding : Type := mkBinding {
  originalKey : string;
  command : string
}.

(** [typeof navigator !== 'undefined' &&
     navigator.platform.toUpperCase().indexOf('MAC') >= 0];
    the argument is [navigator.platform] when [navigator] exists. *)
Definition isMac (navigator : option string) : bool :=
  match navigator with
  | None => false
  | Some platform => includes (toUpperCase platform) "MAC"
  end.

(** *** parseBindLine

    [line.match(re)] where [re] is: the text [\bind], white space
    ([\s+]), a quoted non-empty run of characters other than the double
    quote, white space, and a second quoted run of the same kind.  Every
    piece of the pattern is followed by a character it cannot itself
    match, so the greedy match at a given start is the only one. *)

(** [\s+] *)
Definition match_spaces (s : string) : option string :=
  match s with
  | String c r => if is_space c then Some (drop_spaces r) else None
  | EmptyString => None
  end.

(** the longest run of characters other than the double quote *)
Fixpoint span_non_quote (s : string) : string * string :=
  match s with
  | EmptyString => (EmptyString, EmptyString)
  | String c r =>
      if Ascii.eqb c "034"%char then (EmptyString, s)
      else let (body, rest) := span_non_quote r in (String c body, rest)
  end.

(** a double quote, one or more other characters, a double quote *)
Definition match_quoted (s : string) : option (string * string) :=
  match s with
  | String c r =>
      if Ascii.eqb c "034"%char then
        match span_non_quote r with
        | (EmptyString, _) => None
        | (body, String _ rest) => Some (body, rest)
        | (_, EmptyString) => None
        end
      else None
  | EmptyString => None
  end.

(** the pattern tried at the start of [s] *)
Definition match_bind_at (s : string) : option binding :=
  if startsWith s "\bind" then
    match match_spaces (substring_from 5 s) with
    | None => None
    | Some s1 =>
        match match_quoted s1 with
        | None => None
        | Some (keySequence, s2) =>
            match match_spaces s2 with
            | None => None
            | Some s3 =>
                match match_quoted s3 with
                | None => None
                | Some (cmd, _) => Some (mkBinding keySequence cmd)
                end
            end
        end
    end
  else None.

(** the leftmost match anywhere in the line *)
Fixpoint parseBindLine (line : string) : option binding :=
  match match_bind_at line with
  | Some b => Some b
  | None =>
      match line with
      | EmptyString => None
      | String _ r => parseBindLine r
      end
  end.

(** *** normalizeKeySequence *)

(** [macOptions.mapMetaToCtrl]: [options.mapMetaToCtrl !== false], then
    overwritten by the spread of [options] when the property is there. *)
Definition macOptions_mapMetaToCtrl (o : options) : bool :=
  match mapMetaToCtrl o with
  | None => true
  | Some b => b
  end.

Definition normalizeKeySequence
    (navigator : option string) (sequence : string) (o : options) : string :=
  let normalized :=
    replaceAll "~S-" ""
      (replaceAll "S-" "shift+"
         (replaceAll "C-" "ctrl+" sequence)) in
  let normalized :=
    if isMac navigator then
      if macOptions_mapMetaToCtrl o
      then replaceAll "A-" "alt+" (replaceAll "M-" "ctrl+" normalized)
      else replaceAll "A-" "alt+" (replaceAll "M-" "meta+" normalized)
    else replaceAll "A-" "alt+" (replaceAll "M-" "alt+" normalized) in
  replaceAll "down" "arrowdown"
    (replaceAll "up" "arrowup"
       (replaceAll "right" "arrowright"
          (replaceAll "left" "arrowleft"
             (replaceAll "end" "end"
                (replaceAll "home" "home"
                   (replaceAll "next" "pagedown"
                      (replaceAll "prior" "pageup"
                         (replaceAll "escape" "escape"
                            (replaceAll "tab" "tab"
                               (replaceAll "space" "space"
                                  (replaceAll "delete" "delete"
                                     (replaceAll "backspace" "backspace"
                                        (replaceAll "return" "enter"
                                           (replace_final_plus_letter
                                              (toLowerCase normalized))))))))))))))).


(** *** convertCommand

    [commandMappings[command] || null] is read as a look-up among the
    properties written in the literal; the names of
    [JsObject.Object_prototype], for which the object answers with an
    inherited member, are set apart where a property depends on them. *)

Definition commandMappings : list (string * action) :=
  [ ("font-bold", Wrap "**" "**");
    ("font-emph", Wrap "*" "*");
    ("font-underline", Wrap "_" "_");
    ("font-typewriter", Wrap "`" "`");
    ("font-strikeout", Wrap "~~" "~~");
    ("math-mode", Wrap "$" "$");
    ("math-display", Wrap ("$$" ++ nl) (nl ++ "$$"));
    ("quote-insert inner", Insert dq);
    ("quote-insert outer auto plain", Insert "'");
    ("specialchar-insert hyphenation", Insert (utf8 [194; 173]));
    ("specialchar-insert nobreakdash", Insert (utf8 [226; 128; 145]));
    ("specialchar-insert ligature-break", Insert (utf8 [226; 128; 140]));
    ("specialchar-insert slash", Insert "/");
    ("specialchar-insert end-of-sentence", Insert ". ");
    ("specialchar-insert dots", Insert (utf8 [226; 128; 166]));
    ("space-insert protected", Insert (utf8 [194; 160]));
    ("space-insert normal", Insert " ");
    ("space-insert thin", Insert (utf8 [226; 128; 137]));
    ("ert-insert", Wrap "\" "");
    ("paragraph-break", Insert (nl ++ nl));
    ("paragraph-break inverse", Insert nl);
    ("newline-insert newline", Insert nl);
    ("newline-insert linebreak", Insert ("\\" ++ nl));
    ("char-forward", Navigation "moveRight");
    ("char-backward", Navigation "moveLeft");
    ("word-right", Navigation "moveWordRight");
    ("word-left", Navigation "moveWordLeft");
    ("line-begin", Navigation "moveLineStart");
    ("line-end", Navigation "moveLineEnd");
    ("buffer-begin", Navigation "moveDocumentStart");
    ("buffer-end", Navigation "moveDocumentEnd");
    ("char-right-select", Selection "selectRight");
    ("char-left-select", Selection "selectLeft");
    ("word-right-select", Selection "selectWordRight");
    ("word-left-select", Selection "selectWordLeft");
    ("line-begin-select", Selection "selectLineStart");
    ("line-end-select", Selection "selectLineEnd");
    ("buffer-begin-select", Selection "selectDocumentStart");
    ("buffer-end-select", Selection "selectDocumentEnd");
    ("char-delete-forward", Delete "deleteRight");
    ("char-delete-backward", Delete "deleteLeft");
    ("word-delete-forward", Delete "deleteWordRight");
    ("word-delete-backward", Delete "deleteWordLeft");
    ("line-delete-forward", Delete "deleteLineForward");
    ("copy", Clipboard "copy");
    ("paste", Clipboard "paste");
    ("cut", Clipboard "cut");
    ("undo", Edit "undo");
    ("redo", Edit "redo") ].

Definition convertCommand (cmd : string) : option action :=
  if startsWith cmd "math-insert "
  then Some (Insert (substring_from (String.length "math-insert ") cmd))
  else JsMap.get cmd commandMappings.

(** *** resolveConflictsAndBuild *)

Definition commonMacKeys : list string :=
  ["m"; "n"; "o"; "p"; "q"; "r"; "s"; "t"; "w"].

(** first loop of the first pass: the base keys of the [M-] bindings *)
Definition collect_metaKeys (rawBindings : list binding) : JsSet.t :=
  fold_left
    (fun metaKeys b =>
       if startsWith (originalKey b) "M-"
       then JsSet.add (substring_from 2 (originalKey b)) metaKeys
       else metaKeys)
    rawBindings [].

(** the inner loop over [otherBinding] *)
Definition mark_conflicts
    (rawBindings : list binding) (b : binding) (baseKey : string)
    (conflictingCtrlKeys : JsSet.t) : JsSet.t :=
  fold_left
    (fun conflicting other =>
       if String.eqb (originalKey other) ("M-" ++ baseKey)
          && String.eqb (command other) (command b)
       then JsSet.add (originalKey b) conflicting
       else conflicting)
    rawBindings conflictingCtrlKeys.

(** second loop of the first pass; the state is
    [(conflictingCtrlKeys, ctrlKeysToPromote)] *)
Definition find_conflicts
    (rawBindings : list binding) (metaKeys : JsSet.t) : JsSet.t * JsSet.t :=
  fold_left
    (fun st b =>
       let '(conflictingCtrlKeys, ctrlKeysToPromote) := st in
       if startsWith (originalKey b) "C-" then
         let baseKey := substring_from 2 (originalKey b) in
         let conflictingCtrlKeys :=
           mark_conflicts rawBindings b baseKey conflictingCtrlKeys in
         if existsb (String.eqb baseKey) commonMacKeys
            && negb (JsSet.has baseKey metaKeys)
         then (JsSet.add (originalKey b) conflictingCtrlKeys,
               JsSet.add (originalKey b) ctrlKeysToPromote)
         else (conflictingCtrlKeys, ctrlKeysToPromote)
       else st)
    rawBindings ([], []).

(** [!options.mapMetaToCtrl] *)
Definition not_mapMetaToCtrl (o : options) : bool :=
  match mapMetaToCtrl o with
  | None => true
  | Some b => negb b
  end.

Definition first_pass
    (navigator : option string) (rawBindings : list binding) (o : options)
    : JsSet.t * JsSet.t :=
  if isMac navigator && not_mapMetaToCtrl o
  then find_conflicts rawBindings (collect_metaKeys rawBindings)
  else ([], []).

(** one turn of the second pass *)
Definition build_step
    (navigator : option string) (o : options)
    (conflictingCtrlKeys ctrlKeysToPromote : JsSet.t)
    (keySequences : table) (b : binding) : table :=
  if JsSet.has (originalKey b) conflictingCtrlKeys then
    if JsSet.has (originalKey b) ctrlKeysToPromote then
      let baseKey := substring_from 2 (originalKey b) in
      let metaKey := "meta+" ++ baseKey in
      match convertCommand (command b) with
      | Some a => JsMap.set metaKey a keySequences
      | None => keySequences
      end
    else keySequences
  else
    let normalizedKey := normalizeKeySequence navigator (originalKey b) o in
    match convertCommand (command b) with
    | Some a => JsMap.set normalizedKey a keySequences
    | None => keySequences
    end.

(** [keySequences] is [this.keySequences] on entry; the result is its
    value on exit. *)
Definition resolveConflictsAndBuild
    (navigator : option string) (keySequences : table)
    (rawBindings : list binding) (o : options) : table :=
  let '(conflictingCtrlKeys, ctrlKeysToPromote) :=
    first_pass navigator rawBindings o in
  fold_left
    (build_step navigator o conflictingCtrlKeys ctrlKeysToPromote)
    rawBindings keySequences.

(** *** parse *)

(** the body of the loop over the lines *)
Definition collect_line (rawBindings : list binding) (line : string)
    : list binding :=
  let line := trim line in
  if startsWith line "#" || startsWith line "Format"
     || String.eqb line "" || startsWith line "\bind_file"
  then rawBindings
  else if startsWith line "\bind " then
    match parseBindLine line with
    | Some b => (rawBindings ++ [b])%list
    | None => rawBindings
    end
  else rawBindings.

Definition collect_bindings (content : string) : list binding :=
  fold_left collect_line (split_lines content) [].

(** [this.keySequences.clear()] comes first, so the table starts empty. *)
Definition parse
    (navigator : option string) (content : string) (o : options) : table :=
  resolveConflictsAndBuild navigator [] (collect_bindings content) o.

End LyXConfigParser.

(* ================================================================== *)
(** ** KeySequenceHandler  (core/key-sequence-handler.js) *)
(* ================================================================== *)

Module KeySequenceHandler.

(** The fields of a [KeyboardEvent] that the handler reads. *)
Record KeyboardEvent : Type := mkEvent {
  key : string;
  code : string;
  ctrlKey : bool;
  altKey : bool;
  shiftKey : bool;
  metaKey : bool
}.

(** Values that a caller may hand to [setMappings].  [JObject] carries
    [Object.entries] of the object. *)
Inductive jsval : Type :=
| JUndefined
| JNull
| JBoolean (b : bool)
| JNumber (n : Z)
| JString (s : string)
| JFunction
| JMap (m : table)
| JObject (entries : table).

(** What [this.mappings] can hold, as [findMatchingAction] and
    [hasPartialMatch] tell the cases apart. *)
Inductive store : Type :=
| StoreNone
| StoreMap (m : table)
| StoreObject (entries : table).

(** The object itself. *)
Record handler : Type := mkHandler {
  keySequence : list string;
  sequenceTimeout : option nat;
  sequenceTimeoutDuration : Z;
  mappings : store;
  enabled : bool
}.

(** The timers of the host that are still to fire, each with its handle
    and its delay; every one of them runs [clearSequence].  Handles are
    positive, as [setTimeout] gives them. *)
Record host : Type := mkHost {
  timers : list (nat * Z);
  last_handle : nat
}.

Record world : Type := mkWorld {
  this : handler;
  env : host
}.

(** [setTimeout(callback, delay)] *)
Definition setTimeout (delay : Z) (e : host) : nat * host :=
  let id := S (last_handle e) in
  (id, mkHost (timers e ++ [(id, delay)])%list id).

(** [clearTimeout(id)] *)
Definition clearTimeout (id : nat) (e : host) : host :=
  mkHost (filter (fun t => negb (Nat.eqb (fst t) id)) (timers e))
         (last_handle e).

(** truth value of [this.sequenceTimeout]: [null] and [0] are false *)
Definition truthy_handle (h : option nat) : option nat :=
  match h with
  | Some (S n) => Some (S n)
  | _ => None
  end.

Definition set_keySequence (ks : list string) (h : handler) : handler :=
  mkHandler ks (sequenceTimeout h) (sequenceTimeoutDuration h)
            (mappings h) (enabled h).

Definition set_sequenceTimeout (t : option nat) (h : handler) : handler :=
  mkHandler (keySequence h) t (sequenceTimeoutDuration h)
            (mappings h) (enabled h).

Definition set_sequenceTimeoutDuration (d : Z) (h : handler) : handler :=
  mkHandler (keySequence h) (sequenceTimeout h) d (mappings h) (enabled h).

Definition set_mappings (m : store) (h : handler) : handler :=
  mkHandler (keySequence h) (sequenceTimeout h) (sequenceTimeoutDuration h)
            m (enabled h).

Definition set_enabled (b : bool) (h : handler) : handler :=
  mkHandler (keySequence h) (sequenceTimeout h) (sequenceTimeoutDuration h)
            (mappings h) b.

(** *** constructor *)
Definition constructor : handler :=
  mkHandler [] None 1000%Z (StoreMap []) true.

Definition initial_world : world := mkWorld constructor (mkHost [] 0).

(** *** getKeyCombo *)

Definition codeToKey : list (string * string) :=
  [ ("KeyA", "a"); ("KeyB", "b"); ("KeyC", "c"); ("KeyD", "d");
    ("KeyE", "e"); ("KeyF", "f"); ("KeyG", "g"); ("KeyH", "h");
    ("KeyI", "i"); ("KeyJ", "j"); ("KeyK", "k"); ("KeyL", "l");
    ("KeyM", "m"); ("KeyN", "n"); ("KeyO", "o"); ("KeyP", "p");
    ("KeyQ", "q"); ("KeyR", "r"); ("KeyS", "s"); ("KeyT", "t");
    ("KeyU", "u"); ("KeyV", "v"); ("KeyW", "w"); ("KeyX", "x");
    ("KeyY", "y"); ("KeyZ", "z");
    ("Digit0", "0"); ("Digit1", "1"); ("Digit2", "2"); ("Digit3", "3");
    ("Digit4", "4"); ("Digit5", "5"); ("Digit6", "6"); ("Digit7", "7");
    ("Digit8", "8"); ("Digit9", "9");
    ("Space", "space") ].

Definition keyNormalizations : list (string * string) :=
  [ (" ", "space");
    ("arrowleft", "left");
    ("arrowright", "right");
    ("arrowup", "up");
    ("arrowdown", "down");
    ("pageup", "prior");
    ("pagedown", "next") ].

(** [obj[k]] among the properties written in a literal.  For a name of
    [JsObject.Object_prototype] the object answers with an inherited
    member instead; a property below that rests on the look-up of a name
    from outside says that the name is none of these. *)
Fixpoint lookup (k : string) (obj : list (string * string)) : option string :=
  match obj with
  | [] => None
  | (k', v) :: rest => if String.eqb k' k then Some v else lookup k rest
  end.

Definition modifier_parts (event : KeyboardEvent) : list string :=
  ((if ctrlKey event then ["ctrl"] else []) ++
   (if altKey event then ["alt"] else []) ++
   (if shiftKey event then ["shift"] else []) ++
   (if metaKey event then ["meta"] else []))%list.

(** the main key, after the Option-key recovery and the renaming *)
Definition main_key (platform : string) (event : KeyboardEvent) : string :=
  let isMac := includes (toUpperCase platform) "MAC" in
  let key0 := toLowerCase (key event) in
  let key1 :=
    if isMac && altKey event && negb (ctrlKey event) && negb (metaKey event)
    then match lookup (code event) codeToKey with
         | Some k => k
         | None => key0
         end
    else key0 in
  match lookup key1 keyNormalizations with
  | Some k => k
  | None => key1
  end.

(** [platform] is [navigator.platform]; [None] is the [null] result. *)
Definition getKeyCombo (platform : string) (event : KeyboardEvent)
    : option string :=
  let parts := modifier_parts event in
  let k := main_key platform event in
  if existsb (String.eqb k) ["control"; "alt"; "shift"; "meta"]
  then None
  else Some (join "+" (parts ++ [k])%list).

(** *** findMatchingAction

    The entries of a table are action objects, so a result that is there
    is true in the test [if (action)]; [None] is [undefined] or [null]. *)
Definition findMatchingAction (h : handler) (sequence : string)
    : option action :=
  match mappings h with
  | StoreNone => None
  | StoreMap m => JsMap.get sequence m
  | StoreObject entries => JsMap.get sequence entries
  end.

(** [new Map(entries)] *)
Definition Map_of_entries (entries : table) : table :=
  fold_left (fun m kv => JsMap.set (fst kv) (snd kv) m) entries [].

(** *** hasPartialMatch *)
Definition hasPartialMatch (h : handler) (sequence : string) : bool :=
  match mappings h with
  | StoreNone => false
  | StoreMap m =>
      existsb (fun k => startsWith k (sequence ++ " ")) (JsMap.keys m)
  | StoreObject entries =>
      existsb (fun k => startsWith k (sequence ++ " "))
              (JsMap.keys (Map_of_entries entries))
  end.

(** *** clearSequence *)
Definition clearSequence (w : world) : world :=
  let h := set_keySequence [] (this w) in
  match truthy_handle (sequenceTimeout h) with
  | Some id => mkWorld (set_sequenceTimeout None h) (clearTimeout id (env w))
  | None => mkWorld h (env w)
  end.

(** *** setMappings *)
Definition setMappings (v : jsval) (w : world) : world :=
  match v with
  | JMap m => mkWorld (set_mappings (StoreMap m) (this w)) (env w)
  | JObject entries =>
      mkWorld (set_mappings (StoreMap (Map_of_entries entries)) (this w))
              (env w)
  | _ => mkWorld (set_mappings (StoreMap []) (this w)) (env w)
  end.

(** *** setEnabled *)
Definition setEnabled (b : bool) (w : world) : world :=
  mkWorld (set_enabled b (this w)) (env w).

(** *** setSequenceTimeout *)
Definition setSequenceTimeout (duration : Z) (w : world) : world :=
  mkWorld (set_sequenceTimeoutDuration duration (this w)) (env w).

(** *** the listeners registered by setupEventListeners *)
Definition on_mappingsUpdated : jsval -> world -> world := setMappings.

Definition on_sequenceTimeoutUpdated (timeout : Z) (w : world) : world :=
  mkWorld (set_sequenceTimeoutDuration timeout (this w)) (env w).

Definition on_enabledToggled (b : bool) (w : world) : world :=
  mkWorld (set_enabled b (this w)) (env w).

(** *** processKeyEvent *)

(** What a call hands back: the boolean it returns and the
    [actionExecute] events it emits, each with its action and target (an
    element, named by a number). *)
Record outcome : Type := mkOutcome {
  returned : bool;
  emitted : list (action * nat)
}.

(** the part of [processKeyEvent] that follows the computation of the
    key combination *)
Definition processKeyCombo (keyCombo : string) (target : nat) (w : world)
    : world * outcome :=
  let h := set_keySequence (keySequence (this w) ++ [keyCombo])%list (this w) in
  let e :=
    match truthy_handle (sequenceTimeout h) with
    | Some id => clearTimeout id (env w)
    | None => env w
    end in
  let fullSequence := join " " (keySequence h) in
  match findMatchingAction h fullSequence with
  | Some a =>
      (clearSequence (mkWorld h e), mkOutcome true [(a, target)])
  | None =>
      if hasPartialMatch h fullSequence then
        let (id, e') := setTimeout (sequenceTimeoutDuration h) e in
        (mkWorld (set_sequenceTimeout (Some id) h) e', mkOutcome true [])
      else
        (clearSequence (mkWorld h e), mkOutcome false [])
  end.

Definition processKeyEvent
    (platform : string) (event : KeyboardEvent) (target : nat) (w : world)
    : world * outcome :=
  if negb (enabled (this w)) then (w, mkOutcome false [])
  else
    match getKeyCombo platform event with
    | None => (w, mkOutcome false [])
    | Some keyCombo =>
        (* [!keyCombo] also holds of the empty string *)
        if String.eqb keyCombo "" then (w, mkOutcome false [])
        else processKeyCombo keyCombo target w
    end.

(** *** the host fires a timer

    Only a timer that is still pending can fire; it leaves the list and
    its callback, [clearSequence], runs. *)
Definition timer_fires (id : nat) (w : world) : world :=
  if existsb (fun t => Nat.eqb (fst t) id) (timers (env w))
  then clearSequence (mkWorld (this w) (clearTimeout id (env w)))
  else w.

End KeySequenceHandler.

(* ================================================================== *)
(** ** Runs of the recognizer *)
(* ================================================================== *)

Module Recognizer.

Import KeySequenceHandler.

(** The calls that reach a handler: its public methods, the three
    listeners it registers, and the host firing a pending timer. *)
Inductive op : Type :=
| ProcessKeyEvent (platform : string) (event : KeyboardEvent) (target : nat)
| ClearSequence
| SetMappings (v : jsval)
| SetEnabled (b : bool)
| SetSequenceTimeout (duration : Z)
| MappingsUpdated (v : jsval)
| SequenceTimeoutUpdated (timeout : Z)
| EnabledToggled (b : bool)
| TimerFires (id : nat).

Definition apply_op (o : op) (w : world) : world :=
  match o with
  | ProcessKeyEvent platform event target =>
      fst (processKeyEvent platform event target w)
  | ClearSequence => clearSequence w
  | SetMappings v => setMappings v w
  | SetEnabled b => setEnabled b w
  | SetSequenceTimeout d => setSequenceTimeout d w
  | MappingsUpdated v => on_mappingsUpdated v w
  | SequenceTimeoutUpdated d => on_sequenceTimeoutUpdated d w
  | EnabledToggled b => on_enabledToggled b w
  | TimerFires id => timer_fires id w
  end.

Definition run (ops : list op) (w : world) : world :=
  fold_left (fun w o => apply_op o w) ops w.

(** the worlds that a freshly constructed handler can get into *)
Inductive reachable : world -> Prop :=
| reach_init : reachable initial_world
| reach_step : forall w o, reachable w -> reachable (apply_op o w).


(** a time-out is scheduled *)
Definition scheduled (w : world) : Prop := timers (env w) <> [].

(** the pending key sequence is not empty *)
Definition pending (w : world) : Prop := keySequence (this w) <> [].

(** The field [sequenceTimeout] and the timers of the host agree, and
    they agree with the pending sequence. *)
Definition coherent (w : world) : Prop :=
  match sequenceTimeout (this w) with
  | None => timers (env w) = [] /\ keySequence (this w) = []
  | Some id =>
      id <> 0 /\ (id <= last_handle (env w))%nat /\
      keySequence (this w) <> [] /\
      exists d, timers (env w) = [(id, d)]
  end.


(** A table with one two-key sequence, and the key presses used with it. *)
Definition alpha_table : table := [("ctrl+l a", Insert "\alpha")].

Definition alpha_world : world :=
  apply_op (SetMappings (JMap alpha_table)) initial_world.

Definition press_ctrl_l : KeyboardEvent :=
  mkEvent "l" "KeyL" true false false false.

Definition press_a : KeyboardEvent :=
  mkEvent "a" "KeyA" false false false false.

(** the world after Ctrl+L: a partial match is in flight *)
Definition alpha_pending : world :=
  apply_op (ProcessKeyEvent "Win32" press_ctrl_l 0) alpha_world.

End Recognizer.

(* ================================================================== *)
(** ** Key values and key specifications *)
(* ================================================================== *)

Module Keys.

Import LyXConfigParser KeySequenceHandler.

(** The browser names of the arrow and page keys, in lower case. *)
Definition arrow_page_tokens : list string :=
  ["arrowleft"; "arrowright"; "arrowup"; "arrowdown"; "pageup"; "pagedown"].

(** [keyNormalizations[key] || key] *)
Definition renamed (k : string) : string :=
  match lookup k keyNormalizations with
  | Some k' => k'
  | None => k
  end.




(** the platforms and option values that tell the three ways of
    rewriting [M-] apart *)
Definition parser_settings : list (option string * options) :=
  [ (None, no_options);
    (Some "MacIntel", mkOptions None (Some true));
    (Some "MacIntel", mkOptions None (Some false)) ].





End Keys.

(* ================================================================== *)
(** ** The first pass of the parser, bind line by bind line *)
(* ================================================================== *)

Module Resolution.

Import LyXConfigParser.

(** [binding.originalKey.substring(2)] *)
Definition baseKey (b : binding) : string := substring_from 2 (originalKey b).

(** some binding is [M-<base key of b>] with the command of [b] *)
Definition has_partner (rawBindings : list binding) (b : binding) : bool :=
  existsb
    (fun other =>
       String.eqb (originalKey other) ("M-" ++ baseKey b)
       && String.eqb (command other) (command b))
    rawBindings.

(** the base key of [b] is a common Mac key without an [M-] binding *)
Definition promotable (metaKeys : JsSet.t) (b : binding) : bool :=
  existsb (String.eqb (baseKey b)) commonMacKeys
  && negb (JsSet.has (baseKey b) metaKeys).

(** some binding is [M-x] *)
Definition is_meta_key (rawBindings : list binding) (x : string) : bool :=
  existsb
    (fun b => startsWith (originalKey b) "M-" && String.eqb x (baseKey b))
    rawBindings.

(** [b] puts [x] into [conflictingCtrlKeys] *)
Definition in_conflicting (rawBindings : list binding) (metaKeys : JsSet.t)
    (x : string) (b : binding) : bool :=
  startsWith (originalKey b) "C-" && String.eqb x (originalKey b)
  && (has_partner rawBindings b || promotable metaKeys b).

(** [b] puts [x] into [ctrlKeysToPromote] *)
Definition in_promote (metaKeys : JsSet.t) (x : string) (b : binding)
    : bool :=
  startsWith (originalKey b) "C-" && String.eqb x (originalKey b)
  && promotable metaKeys b.

(** the bindings that remain when those for key [x] are taken out *)
Definition without_key (x : string) (rawBindings : list binding)
    : list binding :=
  filter (fun b => negb (String.eqb (originalKey b) x)) rawBindings.


(** a bind line *)
Definition bindLine (keySpec cmd : string) : string :=
  "\bind " ++ dq ++ keySpec ++ dq ++ " " ++ dq ++ cmd ++ dq.

Definition mac : option string := Some "MacIntel".
Definition meta_is_command : options := mkOptions None (Some false).

Definition bold_twice : string :=
  bindLine "C-b" "font-bold" ++ nl ++ bindLine "M-b" "font-bold".

Definition math_mode_only : string := bindLine "C-m" "math-mode".



End Resolution.

(* ================================================================== *)
(** ** Shapes of strings *)
(* ================================================================== *)

Module Chars.

(** every character of [s] passes [P] *)
Fixpoint string_forall (P : ascii -> bool) (s : string) : bool :=
  match s with
  | EmptyString => true
  | String c r => P c && string_forall P r
  end.

Definition all_space (s : string) : bool := string_forall is_space s.

Definition quote_free (s : string) : bool :=
  string_forall (fun c => negb (Ascii.eqb c "034"%char)) s.

Definition space_free (s : string) : bool :=
  string_forall (fun c => negb (Ascii.eqb c " "%char)) s.

Definition newline_free (s : string) : bool :=
  string_forall (fun c => negb (Ascii.eqb c "010"%char)) s.

Definition no_upper (s : string) : bool :=
  string_forall (fun c => negb (is_upper c)) s.

(** the ASCII range, where the white space and the letter cases of the
    host language are those of [is_space], [is_upper] and [is_lower] *)
Definition is_ascii (c : ascii) : bool := (nat_of_ascii c <? 128)%nat.

Definition ascii_only (s : string) : bool := string_forall is_ascii s.

(** ASCII characters that are not white space *)
Definition ascii_word (s : string) : bool :=
  string_forall (fun c => is_ascii c && negb (is_space c)) s.

End Chars.

(* ================================================================== *)
(** ** The one-pass parser  (src/lyx-parser.js, and parseBind) *)
(* ================================================================== *)

Module LegacyParser.

Import LyXConfigParser.

(** [parseBind(line)]: the pattern is the one of [parseBindLine];
    [keySequences] is [this.keySequences] before and after. *)
Definition parseBind
    (navigator : option string) (o : options) (keySequences : table)
    (line : string) : table :=
  match parseBindLine line with
  | None => keySequences
  | Some b =>
      let normalizedKey := normalizeKeySequence navigator (originalKey b) o in
      match convertCommand (command b) with
      | Some a => JsMap.set normalizedKey a keySequences
      | None => keySequences
      end
  end.

(** the body of the loop of the one-pass [parse] *)
Definition parse_line
    (navigator : option string) (o : options) (keySequences : table)
    (line : string) : table :=
  let line := trim line in
  if startsWith line "#" || startsWith line "Format"
     || String.eqb line "" || startsWith line "\bind_file"
  then keySequences
  else if startsWith line "\bind "
       then parseBind navigator o keySequences line
       else keySequences.

(** [parse(content, options)] as it was before the conflict pass *)
Definition parse
    (navigator : option string) (content : string) (o : options) : table :=
  fold_left (parse_line navigator o) (split_lines content) [].

End LegacyParser.

(* ================================================================== *)
(** ** Key presses in a row *)
(* ================================================================== *)

Module Feeding.

Import KeySequenceHandler.

(** [processKeyEvent] called on each event in turn; the outcomes are
    listed in the order of the calls. *)
Fixpoint feed (platform : string) (target : nat)
    (events : list KeyboardEvent) (w : world) : world * list outcome :=
  match events with
  | [] => (w, [])
  | event :: rest =>
      let (w1, out) := processKeyEvent platform event target w in
      let (w2, outs) := feed platform target rest w1 in
      (w2, out :: outs)
  end.

(** the names under which [getKeyCombo] drops a key press *)
Definition modifier_names : list string := ["control"; "alt"; "shift"; "meta"].

(** a key specification with its modifiers in the order of the
    recognizer, and the key press that goes with it *)
Definition chord_spec (ctrl alt shift : bool) (letter : ascii) : string :=
  (if ctrl then "C-" else "") ++ (if alt then "A-" else "")
  ++ (if shift then "S-" else "") ++ String letter "".

(** the key that goes with such a specification *)
Definition chord_key (ctrl alt shift : bool) (letter : ascii) : string :=
  (if ctrl then "ctrl+" else "") ++ (if alt then "alt+" else "")
  ++ (if shift then "shift+" else "") ++ String letter "".

Definition chord_press (ctrl alt shift : bool) (k code : string)
    : KeyboardEvent :=
  mkEvent k code ctrl alt shift false.

End Feeding.

(* ================================================================== *)
(** ** MappingManager  (hotkeys/mapping-manager.js) *)
(* ================================================================== *)

Module MappingManager.

Import KeySequenceHandler.

(** [this.mappings.set(keySequence, action)] *)
Definition addMapping (keySequence : string) (a : action) (mappings : table)
    : table :=
  JsMap.set keySequence a mappings.

(** [m.delete(k)]: the map without the entry, and whether there was one *)
Fixpoint delete (k : string) (m : table) : table * bool :=
  match m with
  | [] => ([], false)
  | (k', v) :: rest =>
      if String.eqb k' k then (rest, true)
      else let (rest', removed) := delete k rest in ((k', v) :: rest', removed)
  end.

(** [removeMapping(keySequence)]: the table afterwards and the value
    returned *)
Definition removeMapping (keySequence : string) (mappings : table)
    : table * bool :=
  delete keySequence mappings.

(** [findExactMatch(sequence)]; [None] is [null] *)
Definition findExactMatch (sequence : string) (mappings : table)
    : option action :=
  match JsMap.get sequence mappings with
  | Some a => Some a
  | None => None
  end.

(** [findPartialMatches(sequence)]: the entries whose key starts with the
    sequence and a space, in the order of the map *)
Definition findPartialMatches (sequence : string) (mappings : table)
    : list (string * action) :=
  let sequenceWithSpace := sequence ++ " " in
  filter (fun entry => startsWith (fst entry) sequenceWithSpace) mappings.

(** what [hasMatch] returns: [{type: 'exact', action}],
    [{type: 'partial', matches}] or [null] *)
Inductive match_result : Type :=
| ExactMatch (a : option action)
| PartialMatch (matches : list (string * action))
| NoMatch.

Definition hasMatch (sequence : string) (mappings : table) : match_result :=
  if JsMap.has sequence mappings
  then ExactMatch (JsMap.get sequence mappings)
  else
    let partialMatches := findPartialMatches sequence mappings in
    match partialMatches with
    | _ :: _ => PartialMatch partialMatches
    | [] => NoMatch
    end.

(** An object whose properties hold strings, as the action literals of
    the parser do; [lookup] reads a property. *)
Definition js_object : Type := list (string * string).

(** the object that an action of the parser is *)
Definition action_object (a : action) : js_object :=
  match a with
  | Insert text => [("type", "insert"); ("text", text)]
  | Wrap before after =>
      [("type", "wrap"); ("before", before); ("after", after)]
  | Navigation act => [("type", "navigation"); ("action", act)]
  | Selection act => [("type", "selection"); ("action", act)]
  | Delete act => [("type", "delete"); ("action", act)]
  | Clipboard act => [("type", "clipboard"); ("action", act)]
  | Edit act => [("type", "edit"); ("action", act)]
  end.

(** [{ valid: true }] or [{ valid: false, error }] *)
Inductive validation : Type :=
| Valid
| Invalid (error : string).

Definition validTypes : list string :=
  ["insert"; "wrap"; "navigation"; "deletion"; "selection"; "clipboard";
   "edit"].

(** [!obj[name]]: the property is missing or is the empty string *)
Definition lacks (name : string) (obj : js_object) : bool :=
  match lookup name obj with
  | None => true
  | Some v => String.eqb v ""
  end.

(** [typeof obj[name] !== 'string'] *)
Definition not_a_string (name : string) (obj : js_object) : bool :=
  match lookup name obj with
  | None => true
  | Some _ => false
  end.

(** [validateAction(action)] on an object *)
Definition validateAction (obj : js_object) : validation :=
  if lacks "type" obj then Invalid "Action must have a type"
  else
    let type := match lookup "type" obj with Some t => t | None => "" end in
    if negb (existsb (String.eqb type) validTypes)
    then Invalid ("Invalid action type: " ++ type)
    else if String.eqb type "insert" then
      if not_a_string "text" obj
      then Invalid "Insert action must have text property" else Valid
    else if String.eqb type "wrap" then
      if not_a_string "before" obj || not_a_string "after" obj
      then Invalid "Wrap action must have before and after properties"
      else Valid
    else if String.eqb type "navigation" then
      if lacks "navigation" obj
      then Invalid "Navigation action must have navigation property"
      else Valid
    else if String.eqb type "deletion" then
      if lacks "deletion" obj
      then Invalid "Deletion action must have deletion property" else Valid
    else if String.eqb type "clipboard" then
      if lacks "clipboard" obj
      then Invalid "Clipboard action must have clipboard property"
      else Valid
    else if String.eqb type "edit" then
      if lacks "edit" obj
      then Invalid "Edit action must have edit property" else Valid
    else Valid.

End MappingManager.

(* ================================================================== *)
(** ** The action executor on a text control *)
(* ================================================================== *)

(** Class [ActionExecutor] of [lyx-hotkey-extension/core/config-manager.js].
    The element is a text control, an [input] or a [textarea] whose
    selection can be read and set: its [value] is a string with one
    character for each code unit, and [selectionStart], [selectionEnd]
    are offsets into it.  What the executor does is the sequence of calls
    it makes on the element and on the document; what the calls do is the
    host's.  The helpers for [contenteditable] elements work on the
    selection of the window and are kept as one call each. *)

Module ActionExecutor.

Fixpoint take (n : nat) (s : string) : string :=
  match n, s with
  | S m, String c r => String c (take m r)
  | _, _ => EmptyString
  end.

(** [s.slice(a, b)] for bounds that are not negative: the code units from
    [a] up to [b], none when [b <= a]; [s.slice(a)] is
    [substring_from a s] *)
Definition slice (a b : nat) (s : string) : string :=
  take (b - a) (substring_from a s).

Record element : Type := {
  tagName : string;
  type : string;
  isContentEditable : bool;
  value : string;
  selectionStart : nat;
  selectionEnd : nat
}.

Inductive call : Type :=
| SetValue (newValue : string)             (* [element.value = newValue] *)
| SetSelectionRange (selStart selEnd : Z)  (* [element.setSelectionRange] *)
| DispatchInput                  (* [element.dispatchEvent] of [input] *)
| ExecCommand (name : string)              (* [document.execCommand] *)
| InsertInContentEditable (text : string)
| WrapSelectionInContentEditable (before after : string).

(** the cursor put at [pos] *)
Definition setSelectionRange (selStart selEnd : nat) : call :=
  SetSelectionRange (Z.of_nat selStart) (Z.of_nat selEnd).

Definition inputTypes : list string :=
  ["text"; "search"; "url"; "tel"; "email"; "password"].

(** [isEditableElement(element)] *)
Definition isEditableElement (el : element) : bool :=
  let tagName := toLowerCase (tagName el) in
  let editable := isContentEditable el in
  editable
  || String.eqb tagName "textarea"
  || (String.eqb tagName "input"
      && existsb (String.eqb (type el)) inputTypes).

(** [insertInFormField(text, element)] *)
Definition insertInFormField (text : string) (el : element) : list call :=
  let start := selectionStart el in
  let end_ := selectionEnd el in
  let value := value el in
  let newValue := slice 0 start value ++ text ++ substring_from end_ value in
  let newCursorPos := (start + String.length text)%nat in
  [SetValue newValue; setSelectionRange newCursorPos newCursorPos;
   DispatchInput].

(** [wrapSelectionInFormField(before, after, element)] *)
Definition wrapSelectionInFormField (before after : string) (el : element)
    : list call :=
  let start := selectionStart el in
  let end_ := selectionEnd el in
  let value := value el in
  let selectedText := slice start end_ value in
  let wrappedText := before ++ selectedText ++ after in
  let newValue :=
    slice 0 start value ++ wrappedText ++ substring_from end_ value in
  let newStart := (start + String.length before)%nat in
  let newEnd := (newStart + String.length selectedText)%nat in
  [SetValue newValue; setSelectionRange newStart newEnd; DispatchInput].

(** [executeInsert(action, element)] *)
Definition executeInsert (text : string) (el : element) : list call :=
  if negb (isEditableElement el) then []
  else if isContentEditable el then [InsertInContentEditable text]
  else insertInFormField text el.

(** [executeWrap(action, element)] *)
Definition executeWrap (before after : string) (el : element) : list call :=
  if negb (isEditableElement el) then []
  else if isContentEditable el
  then [WrapSelectionInContentEditable before after]
  else wrapSelectionInFormField before after el.

(** The tests of the loops on [value[i]], which is [undefined] past the
    end: [/\s/.test], [/\S/.test] (it reads [undefined] as a word) and
    [!== '\n']. *)
Definition whitespace (c : option ascii) : bool :=
  match c with Some c => is_space c | None => false end.

Definition non_whitespace (c : option ascii) : bool :=
  match c with Some c => negb (is_space c) | None => true end.

Definition not_newline (c : option ascii) : bool :=
  match c with Some c => negb (Ascii.eqb c "010"%char) | None => true end.

(** [while (pos < value.length && test(value[pos])) pos++], which takes
    no more steps than [value] has code units *)
Fixpoint forward_from (test : option ascii -> bool) (value : string)
    (steps pos : nat) : nat :=
  match steps with
  | O => pos
  | S steps' =>
      if (pos <? String.length value)%nat && test (String.get pos value)
      then forward_from test value steps' (S pos)
      else pos
  end.

Definition forward (test : option ascii -> bool) (value : string) (pos : nat)
    : nat :=
  forward_from test value (String.length value) pos.

(** [while (pos > 0 && test(value[pos - 1])) pos--] *)
Fixpoint backward (test : option ascii -> bool) (value : string) (pos : nat)
    : nat :=
  match pos with
  | O => O
  | S before =>
      if test (String.get before value) then backward test value before
      else pos
  end.

(** the two loops of [moveWord] and of [deleteWord] *)
Definition word_boundary (value : string) (direction : Z) (pos : nat) : nat :=
  if (0 <? direction)%Z
  then forward whitespace value (forward non_whitespace value pos)
  else backward non_whitespace value (backward whitespace value pos).

(** [moveCursor(element, offset)]; a text control has
    [setSelectionRange] *)
Definition moveCursor (el : element) (offset : Z) : list call :=
  let pos := (Z.of_nat (selectionStart el) + offset)%Z in
  [SetSelectionRange pos pos].

Definition moveWord (el : element) (direction : Z) : list call :=
  let pos := word_boundary (value el) direction (selectionStart el) in
  [setSelectionRange pos pos].

Definition moveToLineStart (el : element) : list call :=
  let pos := backward not_newline (value el) (selectionStart el) in
  [setSelectionRange pos pos].

Definition moveToLineEnd (el : element) : list call :=
  let pos := forward not_newline (value el) (selectionStart el) in
  [setSelectionRange pos pos].

Definition moveToDocumentStart (el : element) : list call :=
  [setSelectionRange 0 0].

Definition moveToDocumentEnd (el : element) : list call :=
  let end_ := String.length (value el) in
  [setSelectionRange end_ end_].

(** [deleteSelection(element)] *)
Definition deleteSelection (el : element) : list call :=
  let start := selectionStart el in
  let end_ := selectionEnd el in
  let value := value el in
  let newValue := slice 0 start value ++ substring_from end_ value in
  [SetValue newValue; setSelectionRange start start; DispatchInput].

(** [deleteChar(element, direction)] *)
Definition deleteChar (el : element) (direction : Z) : list call :=
  let start := selectionStart el in
  let end_ := selectionEnd el in
  if negb (start =? end_)%nat then deleteSelection el
  else
    let value := value el in
    let '(newStart, newEnd) :=
      if (0 <? direction)%Z
      then (start, Nat.min (start + 1) (String.length value))
      else (Z.to_nat (Z.max (Z.of_nat start - 1) 0), start) in
    let newValue := slice 0 newStart value ++ substring_from newEnd value in
    [SetValue newValue; setSelectionRange newStart newStart; DispatchInput].

(** [deleteWord(element, direction)] *)
Definition deleteWord (el : element) (direction : Z) : list call :=
  let start := selectionStart el in
  let value := value el in
  let pos := word_boundary value direction start in
  let newValue :=
    slice 0 (Nat.min start pos) value
    ++ substring_from (Nat.max start pos) value in
  [SetValue newValue;
   setSelectionRange (Nat.min start pos) (Nat.min start pos);
   DispatchInput].

(** [deleteToLineEnd(element)] *)
Definition deleteToLineEnd (el : element) : list call :=
  let start := selectionStart el in
  let value := value el in
  let pos := forward not_newline value start in
  let newValue := slice 0 start value ++ substring_from pos value in
  [SetValue newValue; setSelectionRange start start; DispatchInput].

(** [table[name]] called when it is there.  A name that the literal does
    not have gives [undefined], or a method that every object has, which
    makes no call on the element. *)
Fixpoint dispatch (name : string) (table : list (string * list call))
    : list call :=
  match table with
  | [] => []
  | (name', calls) :: rest =>
      if String.eqb name' name then calls else dispatch name rest
  end.

(** [executeNavigation(action, element)] *)
Definition executeNavigation (act : string) (el : element) : list call :=
  let navigationActions :=
    [ ("moveRight", moveCursor el 1);
      ("moveLeft", moveCursor el (-1));
      ("moveWordRight", moveWord el 1);
      ("moveWordLeft", moveWord el (-1));
      ("moveLineStart", moveToLineStart el);
      ("moveLineEnd", moveToLineEnd el);
      ("moveDocumentStart", moveToDocumentStart el);
      ("moveDocumentEnd", moveToDocumentEnd el) ] in
  dispatch act navigationActions.

(** [executeSelection(action, element)] *)
Definition executeSelection (act : string) (el : element) : list call :=
  executeNavigation act el.

(** [executeDelete(action, element)] *)
Definition executeDelete (act : string) (el : element) : list call :=
  let deleteActions :=
    [ ("deleteRight", deleteChar el 1);
      ("deleteLeft", deleteChar el (-1));
      ("deleteWordRight", deleteWord el 1);
      ("deleteWordLeft", deleteWord el (-1));
      ("deleteLineForward", deleteToLineEnd el) ] in
  dispatch act deleteActions.

(** [executeClipboard(action, element)] *)
Definition executeClipboard (act : string) (el : element) : list call :=
  if String.eqb act "copy" then [ExecCommand "copy"]
  else if String.eqb act "paste" then []
  else if String.eqb act "cut" then [ExecCommand "cut"]
  else [].

(** [executeEdit(action, element)] *)
Definition executeEdit (act : string) (el : element) : list call :=
  if String.eqb act "undo" then [ExecCommand "undo"]
  else if String.eqb act "redo" then [ExecCommand "redo"]
  else [].

(** [executeAction(action, element)]: [getActionExecutor] has an executor
    for each type of action *)
Definition executeAction (a : action) (el : element) : list call :=
  match a with
  | Insert text => executeInsert text el
  | Wrap before after => executeWrap before after el
  | Navigation act => executeNavigation act el
  | Selection act => executeSelection act el
  | Delete act => executeDelete act el
  | Clipboard act => executeClipboard act el
  | Edit act => executeEdit act el
  end.

(** a [textarea] with the text [pre ++ sel ++ post] of which [sel] is
    selected *)
Definition textarea (pre sel post : string) : element :=
  {| tagName := "TEXTAREA"; type := "textarea"; isContentEditable := false;
     value := pre ++ sel ++ post;
     selectionStart := String.length pre;
     selectionEnd := String.length pre + String.length sel |}.

End ActionExecutor.

(* ================================================================== *)
(** ** Properties of key normalization *)
(* ================================================================== *)

Section NormalizationFacts.

Import LyXConfigParser Keys.

(** the parser reads [navigator] and [options] in one of three ways *)
Lemma normalizeKeySequence_settings (navigator : option string) (o : options) :
  exists st, In st parser_settings /\
    forall spec, normalizeKeySequence navigator spec o
                 = normalizeKeySequence (fst st) spec (snd st).
Proof.
  destruct (isMac navigator) eqn:Emac.
  - destruct (macOptions_mapMetaToCtrl o) eqn:Eopt.
    + exists (Some "MacIntel", mkOptions None (Some true)).
      split; [simpl; tauto|]. intros spec.
      unfold normalizeKeySequence. now rewrite Emac, Eopt.
    + exists (Some "MacIntel", mkOptions None (Some false)).
      split; [simpl; tauto|]. intros spec.
      unfold normalizeKeySequence. now rewrite Emac, Eopt.
  - exists (None, no_options).
    split; [simpl; tauto|]. intros spec.
    unfold normalizeKeySequence. now rewrite Emac.
Qed.

Lemma replace_final_plus_letter_id (s : string) :
  replace_final_plus_letter s = s.
Proof.
  induction s as [|c rest IH]; [reflexivity|].
  cbn [replace_final_plus_letter]. rewrite IH.
  destruct rest as [|l [|l' rest']]; try reflexivity.
  destruct (Ascii.eqb c "+"%char && is_lower l) eqn:E; [|reflexivity].
  apply andb_prop in E as [E _]. apply Ascii.eqb_eq in E. now subst c.
Qed.

(** C6 does not hold of [normalizeKeySequence]: [S-] is rewritten
    before [~S-] is looked for, so the qualifier is never found.  On
    every platform, for all options and for every key specification [k],
    the result for [~S-] followed by [k] is the result for [k] with
    [~shift+] in front; so [~S-b] becomes [~shift+b], while [b] alone
    stays [b]. *)
Theorem normalizeKeySequence_not_shift
    (navigator : option string) (o : options) :
  (forall k, normalizeKeySequence navigator ("~S-" ++ k) o
             = "~shift+" ++ normalizeKeySequence navigator k o) /\
  normalizeKeySequence navigator "~S-b" o = "~shift+b" /\
  normalizeKeySequence navigator "b" o = "b".
Proof.
  destruct (normalizeKeySequence_settings navigator o) as (st & Hst & E).
  split.
  - intros k. rewrite !E. unfold normalizeKeySequence.
    rewrite !replace_final_plus_letter_id.
    destruct Hst as [<-|[<-|[<-|[]]]]; reflexivity.
  - rewrite !E.
    destruct Hst as [<-|[<-|[<-|[]]]]; split; reflexivity.
Qed.

(** C7 holds for Return only: the later rewriting of [up] and [down]
    reaches into the names just produced for Prior and Next.  On every
    platform and for all options, Return becomes [enter], but Prior
    becomes [pagearrowup] and Next becomes [pagearrowdown]. *)
Theorem normalizeKeySequence_prior_next
    (navigator : option string) (o : options) :
  normalizeKeySequence navigator "Return" o = "enter" /\
  normalizeKeySequence navigator "Prior" o = "pagearrowup" /\
  normalizeKeySequence navigator "Next" o = "pagearrowdown".
Proof.
  destruct (normalizeKeySequence_settings navigator o) as (st & Hst & E).
  rewrite !E.
  destruct Hst as [<-|[<-|[<-|[]]]]; repeat split; reflexivity.
Qed.

(** a leading modifier prefix is rewritten on its own *)
Lemma normalizeKeySequence_prefix
    (navigator : option string) (o : options) (k : string) :
  normalizeKeySequence navigator ("C-" ++ k) o
    = "ctrl+" ++ normalizeKeySequence navigator k o /\
  normalizeKeySequence navigator ("S-" ++ k) o
    = "shift+" ++ normalizeKeySequence navigator k o /\
  normalizeKeySequence navigator ("A-" ++ k) o
    = "alt+" ++ normalizeKeySequence navigator k o /\
  normalizeKeySequence navigator ("M-" ++ k) o
    = (if isMac navigator
       then if macOptions_mapMetaToCtrl o then "ctrl+" else "meta+"
       else "alt+")
      ++ normalizeKeySequence navigator k o.
Proof.
  unfold normalizeKeySequence. rewrite !replace_final_plus_letter_id.
  destruct (isMac navigator); [destruct (macOptions_mapMetaToCtrl o)|];
    repeat split; reflexivity.
Qed.

End NormalizationFacts.

(* ================================================================== *)
(** ** Properties of the recognizer *)
(* ================================================================== *)

Section RecognizerFacts.

Import KeySequenceHandler Recognizer.

Lemma clearTimeout_single (id : nat) (d : Z) (n : nat) :
  clearTimeout id (mkHost [(id, d)] n) = mkHost [] n.
Proof.
  unfold clearTimeout; simpl. now rewrite Nat.eqb_refl.
Qed.

(** the shape of a coherent world *)
Lemma coherent_cases (w : world) :
  coherent w ->
  (sequenceTimeout (this w) = None /\ timers (env w) = [] /\
   keySequence (this w) = []) \/
  (exists id d, sequenceTimeout (this w) = Some (S id) /\
                timers (env w) = [(S id, d)] /\
                keySequence (this w) <> [] /\
                (S id <= last_handle (env w))%nat).
Proof.
  unfold coherent. destruct (sequenceTimeout (this w)) as [id|].
  - intros (Hid & Hle & Hks & d & Ht). right. destruct id as [|id]; [easy|].
    now exists id, d.
  - intros [Ht Hks]. now left.
Qed.

Lemma clearSequence_clears (w : world) :
  coherent w ->
  keySequence (this (clearSequence w)) = [] /\
  sequenceTimeout (this (clearSequence w)) = None /\
  timers (env (clearSequence w)) = [] /\
  mappings (this (clearSequence w)) = mappings (this w) /\
  enabled (this (clearSequence w)) = enabled (this w).
Proof.
  intros Hc. destruct w as [h [ts n]].
  destruct (coherent_cases _ Hc) as [(Hs & Ht & Hk) | (id & d & Hs & Ht & Hk & Hle)];
    simpl in *; subst ts; unfold clearSequence; simpl; rewrite Hs; simpl.
  - easy.
  - now rewrite Nat.eqb_refl.
Qed.

Lemma clearSequence_coherent (w : world) :
  coherent w -> coherent (clearSequence w).
Proof.
  intros Hc. destruct (clearSequence_clears w Hc) as (Hk & Hs & Ht & _).
  unfold coherent. now rewrite Hs.
Qed.

Lemma app_not_nil {A : Type} (l : list A) (x : A) : (l ++ [x])%list <> [].
Proof. now destruct l. Qed.

(** the world in which [processKeyCombo] looks for a match: the combo
    pushed, the old timer cancelled, the field not yet reset *)
Lemma processKeyCombo_cases (keyCombo : string) (target : nat) (w : world) :
  coherent w ->
  let seq := (keySequence (this w) ++ [keyCombo])%list in
  let h := set_keySequence seq (this w) in
  let full := join " " seq in
  let w' := fst (processKeyCombo keyCombo target w) in
  let out := snd (processKeyCombo keyCombo target w) in
  mappings (this w') = mappings (this w) /\
  enabled (this w') = enabled (this w) /\
  sequenceTimeoutDuration (this w') = sequenceTimeoutDuration (this w) /\
  match findMatchingAction h full with
  | Some a =>
      out = mkOutcome true [(a, target)] /\
      keySequence (this w') = [] /\ sequenceTimeout (this w') = None /\
      timers (env w') = []
  | None =>
      if hasPartialMatch h full then
        out = mkOutcome true [] /\
        keySequence (this w') = seq /\
        sequenceTimeout (this w') = Some (S (last_handle (env w))) /\
        last_handle (env w') = S (last_handle (env w)) /\
        timers (env w') =
          [(S (last_handle (env w)), sequenceTimeoutDuration (this w))]
      else
        out = mkOutcome false [] /\
        keySequence (this w') = [] /\ sequenceTimeout (this w') = None /\
        timers (env w') = []
  end.
Proof.
  intros Hc. destruct w as [h0 [ts n]].
  destruct (coherent_cases _ Hc) as [(Hs & Ht & Hk) | (id & d & Hs & Ht & Hk & Hle)];
    simpl in *; subst ts; unfold processKeyCombo; simpl; rewrite Hs; simpl;
    rewrite ?Nat.eqb_refl; simpl;
    match goal with
    | |- context [findMatchingAction ?hh ?ff] =>
        destruct (findMatchingAction hh ff) as [a|];
        [| destruct (hasPartialMatch hh ff)]
    end; simpl;
    unfold clearSequence; simpl; rewrite ?Hs; simpl;
    rewrite ?Nat.eqb_refl; simpl; repeat split; reflexivity || exact Hs.
Qed.

Lemma processKeyCombo_coherent (keyCombo : string) (target : nat) (w : world) :
  coherent w -> coherent (fst (processKeyCombo keyCombo target w)).
Proof.
  intros Hc. pose proof (processKeyCombo_cases keyCombo target w Hc) as H.
  cbv zeta in H. destruct H as (_ & _ & _ & H). unfold coherent.
  destruct (findMatchingAction _ _) as [a|].
  - destruct H as (_ & Hk & Hs & Ht). now rewrite Hs.
  - destruct (hasPartialMatch _ _).
    + destruct H as (_ & Hk & Hs & Hl & Ht). rewrite Hs, Hk, Ht, Hl.
      repeat split; [easy | lia | apply app_not_nil | now eexists].
    + destruct H as (_ & Hk & Hs & Ht). now rewrite Hs.
Qed.

Lemma processKeyEvent_coherent platform event target (w : world) :
  coherent w -> coherent (fst (processKeyEvent platform event target w)).
Proof.
  intros Hc. unfold processKeyEvent.
  destruct (negb (enabled (this w))); [exact Hc|].
  destruct (getKeyCombo platform event) as [c|]; [|exact Hc].
  destruct (String.eqb c ""); [exact Hc|].
  now apply processKeyCombo_coherent.
Qed.

Lemma timer_fires_coherent (id : nat) (w : world) :
  coherent w -> coherent (timer_fires id w).
Proof.
  intros Hc. destruct w as [h [ts n]].
  destruct (coherent_cases _ Hc) as [(Hs & Ht & Hk) | (id' & d & Hs & Ht & Hk & Hle)];
    simpl in Hs, Ht, Hk; subst ts; unfold timer_fires; cbn [env timers this existsb fst].
  - exact Hc.
  - rewrite orb_false_r. destruct (Nat.eqb (S id') id) eqn:E; [|exact Hc].
    apply Nat.eqb_eq in E. subst id.
    rewrite clearTimeout_single.
    unfold clearSequence, coherent; simpl. rewrite Hs; simpl. now split.
Qed.







Lemma apply_op_coherent (o : op) (w : world) :
  coherent w -> coherent (apply_op o w).
Proof.
  intros Hc. destruct o; simpl.
  - now apply processKeyEvent_coherent.
  - now apply clearSequence_coherent.
  - destruct v; exact Hc.
  - exact Hc.
  - exact Hc.
  - destruct v; exact Hc.
  - exact Hc.
  - exact Hc.
  - now apply timer_fires_coherent.
Qed.

Lemma reachable_coherent (w : world) : reachable w -> coherent w.
Proof.
  induction 1 as [|w o _ IH].
  - simpl. now split.
  - now apply apply_op_coherent.
Qed.

(** *** The decision taken for a key press *)

(** C1.  On an enabled recognizer, a key-down event that yields a key
    combination (a string that is not empty) is appended to the pending sequence and every timer that
    was pending is cancelled.  Then, with [full] the pending sequence
    joined by spaces: if [full] is a key of the table the call returns
    [true] and emits that key's action, and afterwards the pending
    sequence is empty and no timer is scheduled; otherwise, if some key
    of the table starts with [full] and a space, the call returns [true],
    emits nothing, keeps the pending sequence and schedules exactly one
    timer, with the configured duration; otherwise it returns [false] and
    the pending sequence is empty. *)
Theorem processKeyEvent_decision
    (platform : string) (event : KeyboardEvent) (target : nat)
    (w : world) (m : table) (keyCombo : string) :
  reachable w ->
  enabled (this w) = true ->
  mappings (this w) = StoreMap m ->
  getKeyCombo platform event = Some keyCombo ->
  keyCombo <> "" ->
  let seq := (keySequence (this w) ++ [keyCombo])%list in
  let full := join " " seq in
  let partial :=
    exists k, In k (JsMap.keys m) /\ startsWith k (full ++ " ") = true in
  let w' := fst (processKeyEvent platform event target w) in
  let out := snd (processKeyEvent platform event target w) in
  (forall t, In t (timers (env w)) ->
             ~ In (fst t) (map fst (timers (env w')))) /\
  (forall a, JsMap.get full m = Some a ->
     out = mkOutcome true [(a, target)] /\
     keySequence (this w') = [] /\ ~ scheduled w') /\
  (JsMap.get full m = None -> partial ->
     out = mkOutcome true [] /\
     keySequence (this w') = seq /\
     timers (env w') =
       [(S (last_handle (env w)), sequenceTimeoutDuration (this w))]) /\
  (JsMap.get full m = None -> ~ partial ->
     out = mkOutcome false [] /\
     keySequence (this w') = [] /\ ~ scheduled w').
Proof.
  intros Hr Hen Hm Hcombo Hne seq full partial w' out.
  pose proof (reachable_coherent w Hr) as Hc.
  pose proof (processKeyCombo_cases keyCombo target w Hc) as H.
  cbv zeta in H. destruct H as (_ & _ & _ & H).
  assert (Ew : processKeyEvent platform event target w =
               processKeyCombo keyCombo target w).
  { unfold processKeyEvent. rewrite Hen, Hcombo. simpl.
    apply String.eqb_neq in Hne. now rewrite Hne. }
  subst w' out. rewrite Ew. clear Ew.
  assert (Ef : findMatchingAction
                 (set_keySequence seq (this w)) full = JsMap.get full m).
  { unfold findMatchingAction. simpl. now rewrite Hm. }
  assert (Ep : hasPartialMatch (set_keySequence seq (this w)) full = true
               <-> partial).
  { unfold hasPartialMatch. simpl. rewrite Hm.
    rewrite existsb_exists. reflexivity. }
  fold seq in H. fold full in H. rewrite Ef in H.
  unfold scheduled.
  destruct (JsMap.get full m) as [a|].
  - destruct H as (Ho & Hk & Hs & Ht). rewrite Ht.
    split; [intros t _ Hin; exact Hin|].
    split; [intros a' [= <-]; now repeat split|].
    split; discriminate.
  - destruct (hasPartialMatch _ _) eqn:E.
    + destruct H as (Ho & Hk & Hs & Hl & Ht). rewrite Ht.
      assert (Hp : partial) by now apply Ep.
      split.
      { intros t Hin [Heq|[]]. simpl in Heq.
        destruct (coherent_cases _ Hc)
          as [(_ & Hts & _) | (id & d & _ & Hts & _ & Hle)];
          rewrite Hts in Hin; [destruct Hin|].
        destruct Hin as [<-|[]]. simpl in Heq. lia. }
      split; [discriminate|].
      split; [now intros _ _|].
      intros _ Hn. now destruct Hn.
    + destruct H as (Ho & Hk & Hs & Ht). rewrite Ht.
      assert (Hnp : ~ partial).
      { intros Hp. apply Ep in Hp. discriminate. }
      split; [intros t _ Hin; exact Hin|].
      split; [discriminate|].
      split; [intros _ Hp; now destruct Hnp|].
      intros _ _. now repeat split.
Qed.

Lemma processKeyEvent_decision_witness :
  reachable alpha_world /\
  enabled (this alpha_world) = true /\
  mappings (this alpha_world) = StoreMap alpha_table /\
  getKeyCombo "Win32" press_ctrl_l = Some "ctrl+l" /\
  "ctrl+l" <> "" /\
  snd (processKeyEvent "Win32" press_ctrl_l 0 alpha_world) = mkOutcome true [] /\
  keySequence (this (fst (processKeyEvent "Win32" press_ctrl_l 0 alpha_world)))
    = ["ctrl+l"] /\
  timers (env (fst (processKeyEvent "Win32" press_ctrl_l 0 alpha_world)))
    = [(1, 1000%Z)].
Proof.
  assert (Hr : reachable alpha_world).
  { unfold alpha_world. apply reach_step, reach_init. }
  split; [exact Hr|].
  split; [reflexivity|]. split; [reflexivity|]. split; [reflexivity|].
  assert (Hne : "ctrl+l" <> "") by discriminate.
  split; [exact Hne|].
  apply (proj1 (proj2 (proj2
           (processKeyEvent_decision "Win32" press_ctrl_l 0 alpha_world
              alpha_table "ctrl+l" Hr eq_refl eq_refl eq_refl Hne)))).
  - reflexivity.
  - exists "ctrl+l a". split; [now left|reflexivity].
Defined.

(** *** The timer and the pending sequence go together *)

(** C10.  In the initial state and after every call that reaches the
    handler (its public operations, its listeners, a timer firing), a
    time-out is scheduled if and only if the pending key sequence is not
    empty; at most one timer is ever outstanding, and the handle kept in
    [sequenceTimeout] is that timer's. *)
Theorem timer_iff_pending_sequence (w : world) :
  reachable w ->
  (scheduled w <-> pending w) /\
  (List.length (timers (env w)) <= 1)%nat /\
  map fst (timers (env w)) =
    match sequenceTimeout (this w) with Some id => [id] | None => [] end.
Proof.
  intros Hr. pose proof (reachable_coherent w Hr) as Hc.
  unfold scheduled, pending.
  destruct (coherent_cases _ Hc)
    as [(Hs & Ht & Hk) | (id & d & Hs & Ht & Hk & Hle)];
    rewrite Hs, Ht.
  - rewrite Hk. simpl. repeat split; auto; intros H; now destruct H.
  - simpl. repeat split; auto; intros _; discriminate.
Qed.

Lemma timer_iff_pending_sequence_witness :
  reachable alpha_pending /\
  (scheduled alpha_pending <-> pending alpha_pending) /\
  (List.length (timers (env alpha_pending)) <= 1)%nat /\
  map fst (timers (env alpha_pending)) =
    match sequenceTimeout (this alpha_pending) with
    | Some id => [id]
    | None => []
    end.
Proof.
  assert (Hr : reachable alpha_pending).
  { unfold alpha_pending, alpha_world. do 2 apply reach_step.
    apply reach_init. }
  split; [exact Hr|].
  exact (timer_iff_pending_sequence alpha_pending Hr).
Defined.

(** *** Disabling the recognizer *)

(** C8 does not hold of [setEnabled]: the method, like the listener of
    [enabledToggled], only stores the flag.
    The pending sequence and the timer stay as they were, whatever the
    state; and with Ctrl+L pending in [alpha_table], disabling and
    enabling again lets the next key, A, complete the old sequence,
    whereas A pressed on a fresh recognizer matches nothing. *)
Theorem setEnabled_keeps_pending_sequence :
  (forall (b : bool) (w : world),
      keySequence (this (setEnabled b w)) = keySequence (this w) /\
      sequenceTimeout (this (setEnabled b w)) = sequenceTimeout (this w) /\
      timers (env (setEnabled b w)) = timers (env w) /\
      on_enabledToggled b w = setEnabled b w) /\
  keySequence (this (setEnabled false alpha_pending)) = ["ctrl+l"] /\
  timers (env (setEnabled false alpha_pending)) = [(1, 1000%Z)] /\
  snd (processKeyEvent "Win32" press_a 0
         (setEnabled true (setEnabled false alpha_pending)))
    = mkOutcome true [(Insert "\alpha", 0)] /\
  snd (processKeyEvent "Win32" press_a 0 alpha_world) = mkOutcome false [].
Proof.
  split; [intros b w; now repeat split|].
  repeat split; reflexivity.
Qed.

(** *** An invalid table *)



End RecognizerFacts.

(* ================================================================== *)
(** ** Properties of getKeyCombo *)
(* ================================================================== *)

Section KeyComboFacts.

Import LyXConfigParser KeySequenceHandler Keys.

(** C2 does not hold of [getKeyCombo]: the modifiers do come first, in
    the order ctrl, alt, shift, meta and joined by [+], but the arrow and
    page keys are renamed to their LyX names, whatever the platform and the
    modifiers held.  Ctrl+ArrowLeft gives [ctrl+left] and Ctrl+PageUp gives
    [ctrl+prior]; the parser writes the same bindings as [ctrl+arrowleft]
    and [ctrl+pagearrowup]. *)
Theorem getKeyCombo_arrow_keys (platform : string) :
  (forall c a sh m : bool,
      map (fun k => getKeyCombo platform (mkEvent k k c a sh m))
          ["ArrowLeft"; "ArrowRight"; "ArrowUp"; "ArrowDown";
           "PageUp"; "PageDown"]
      = map (fun name =>
               Some (join "+" (modifier_parts (mkEvent "" "" c a sh m)
                               ++ [name])%list))
            ["left"; "right"; "up"; "down"; "prior"; "next"]) /\
  getKeyCombo platform (mkEvent "ArrowLeft" "ArrowLeft" true false false false)
    = Some "ctrl+left" /\
  getKeyCombo platform (mkEvent "PageUp" "PageUp" true false false false)
    = Some "ctrl+prior" /\
  getKeyCombo platform (mkEvent "ArrowLeft" "ArrowLeft" true true true true)
    = Some "ctrl+alt+shift+meta+left" /\
  normalizeKeySequence (Some platform) "C-Left" (mkOptions None (Some false))
    = "ctrl+arrowleft" /\
  normalizeKeySequence (Some platform) "C-Prior" (mkOptions None (Some false))
    = "ctrl+pagearrowup".
Proof.
  unfold getKeyCombo, main_key, normalizeKeySequence, isMac.
  destruct (includes (toUpperCase platform) "MAC").
  - split; [intros [] [] [] []; reflexivity|]. repeat split; reflexivity.
  - split; [intros [] [] [] []; reflexivity|]. repeat split; reflexivity.
Qed.

(** *** The recognizer never names an arrow or page key as the parser does *)

Lemma startsWith_length (s p : string) :
  startsWith s p = true -> (String.length p <= String.length s)%nat.
Proof.
  revert s. induction p as [|pc pr IH]; intros s H; simpl in *; [lia|].
  destruct s as [|sc sr]; [discriminate|].
  apply andb_prop in H as [_ H]. apply IH in H. simpl. lia.
Qed.

Lemma includes_short (s p : string) :
  (String.length s < String.length p)%nat -> includes s p = false.
Proof.
  induction s as [|c r IH]; intros H.
  - destruct p; [simpl in H; lia|reflexivity].
  - cbn [includes]. apply orb_false_intro.
    + destruct (startsWith (String c r) p) eqn:E; [|reflexivity].
      apply startsWith_length in E. lia.
    + apply IH. simpl in H. lia.
Qed.

Lemma toLowerCase_length (s : string) :
  String.length (toLowerCase s) = String.length s.
Proof.
  induction s as [|c r IH]; simpl; [reflexivity|].
  unfold toLowerCase in IH. now rewrite IH.
Qed.

Lemma token_length (tok : string) :
  In tok arrow_page_tokens -> (6 <= String.length tok)%nat.
Proof.
  intros H. repeat (destruct H as [<-|H]; [simpl; lia|]). destruct H.
Qed.

Lemma lookup_In (k v : string) (obj : list (string * string)) :
  lookup k obj = Some v -> In v (map snd obj).
Proof.
  induction obj as [|[k' v'] rest IH]; simpl; [discriminate|].
  destruct (String.eqb k' k); [intros [= ->]; now left|].
  intros H. right. now apply IH.
Qed.
















End KeyComboFacts.

(* ================================================================== *)
(** ** Properties of the parser *)
(* ================================================================== *)

Section ParserFacts.

Import LyXConfigParser Resolution.

(** *** Sets and maps *)

Lemma JsSet_has_add (x y : string) (s : JsSet.t) :
  JsSet.has x (JsSet.add y s) = JsSet.has x s || String.eqb x y.
Proof.
  unfold JsSet.add. destruct (JsSet.has y s) eqn:E.
  - destruct (String.eqb x y) eqn:Exy; [|now rewrite orb_false_r].
    apply String.eqb_eq in Exy. subst y. now rewrite E.
  - unfold JsSet.has. rewrite existsb_app. simpl. now rewrite orb_false_r.
Qed.

Lemma JsMap_get_set_same (k : string) (a : action) (m : table) :
  JsMap.get k (JsMap.set k a m) = Some a.
Proof.
  induction m as [|[k' v'] rest IH]; simpl.
  - now rewrite String.eqb_refl.
  - destruct (String.eqb k' k) eqn:E; simpl; now rewrite E.
Qed.

Lemma JsMap_get_set_other (k k' : string) (a : action) (m : table) :
  k' <> k -> JsMap.get k' (JsMap.set k a m) = JsMap.get k' m.
Proof.
  intros Hne. induction m as [|[k0 v0] rest IH]; simpl.
  - destruct (String.eqb k k') eqn:E; [|reflexivity].
    apply String.eqb_eq in E. now subst.
  - destruct (String.eqb k0 k) eqn:E; simpl.
    + apply String.eqb_eq in E. subst k0.
      destruct (String.eqb k k') eqn:E'; [|reflexivity].
      apply String.eqb_eq in E'. now subst.
    + now rewrite IH.
Qed.

Lemma JsMap_has_set (k k' : string) (a : action) (m : table) :
  JsMap.has k' (JsMap.set k a m) = String.eqb k' k || JsMap.has k' m.
Proof.
  unfold JsMap.has. destruct (String.eqb k' k) eqn:E.
  - apply String.eqb_eq in E. subst. now rewrite JsMap_get_set_same.
  - rewrite JsMap_get_set_other; [reflexivity|].
    now apply String.eqb_neq.
Qed.

Lemma existsb_filter_same {A : Type} (f g : A -> bool) (l : list A) :
  (forall a, In a l -> g a = false -> f a = false) ->
  existsb f (filter g l) = existsb f l.
Proof.
  induction l as [|a l IH]; intros H; simpl; [reflexivity|].
  destruct (g a) eqn:E; simpl.
  - rewrite IH; [reflexivity|]. intros. apply H; [now right|assumption].
  - rewrite (H a (or_introl eq_refl) E). simpl.
    apply IH. intros. apply H; [now right|assumption].
Qed.

Lemma existsb_ext_in {A : Type} (f g : A -> bool) (l : list A) :
  (forall a, In a l -> f a = g a) -> existsb f l = existsb g l.
Proof.
  induction l as [|a l IH]; intros H; simpl; [reflexivity|].
  rewrite (H a (or_introl eq_refl)), IH; [reflexivity|].
  intros. apply H. now right.
Qed.

Lemma fold_left_ext_in {A B : Type} (f g : A -> B -> A) (l : list B) (a : A) :
  (forall x b, In b l -> f x b = g x b) ->
  fold_left f l a = fold_left g l a.
Proof.
  revert a. induction l as [|b l IH]; intros a H; simpl; [reflexivity|].
  rewrite (H a b (or_introl eq_refl)). apply IH.
  intros. apply H. now right.
Qed.

Lemma fold_left_filter {A B : Type} (f : A -> B -> A) (g : B -> bool)
    (l : list B) (a : A) :
  (forall x b, In b l -> g b = false -> f x b = x) ->
  fold_left f (filter g l) a = fold_left f l a.
Proof.
  revert a. induction l as [|b l IH]; intros a H; simpl; [reflexivity|].
  destruct (g b) eqn:E; simpl.
  - apply IH. intros. apply H; [now right|assumption].
  - rewrite (H a b (or_introl eq_refl) E).
    apply IH. intros. apply H; [now right|assumption].
Qed.

(** an invariant of a loop that some turn of the loop establishes *)
Lemma fold_left_establish {A B : Type} (f : A -> B -> A) (P : A -> Prop)
    (l : list B) (b0 : B) (a : A) :
  In b0 l ->
  (forall x, P (f x b0)) ->
  (forall x b, In b l -> P x -> P (f x b)) ->
  P (fold_left f l a).
Proof.
  intros Hin Hset Hkeep.
  assert (Hmono : forall l' x, (forall b, In b l' -> In b l) -> P x ->
                               P (fold_left f l' x)).
  { induction l' as [|b l' IH]; intros x Hsub Hx; simpl; [exact Hx|].
    apply IH; [intros; apply Hsub; now right|].
    apply Hkeep; [apply Hsub; now left|exact Hx]. }
  assert (Hgen : forall l' x, (forall b, In b l' -> In b l) -> In b0 l' ->
                              P (fold_left f l' x)).
  { induction l' as [|b l' IH]; intros x Hsub Hb0; simpl; [destruct Hb0|].
    destruct Hb0 as [->|Hb0].
    - apply Hmono; [intros; apply Hsub; now right|apply Hset].
    - apply IH; [intros; apply Hsub; now right|exact Hb0]. }
  apply Hgen; [tauto|exact Hin].
Qed.

Lemma fold_left_invariant {A B : Type} (f : A -> B -> A) (P : A -> Prop)
    (l : list B) (a : A) :
  P a ->
  (forall x b, In b l -> P x -> P (f x b)) ->
  P (fold_left f l a).
Proof.
  revert a. induction l as [|b l IH]; intros a Ha H; simpl; [exact Ha|].
  apply IH; [apply H; [now left|exact Ha]|].
  intros. apply H; [now right|assumption].
Qed.

(** *** What the first pass computes *)

Lemma startsWith_two (s : string) (c1 c2 : ascii) :
  startsWith s (String c1 (String c2 "")) = true ->
  s = String c1 (String c2 (substring_from 2 s)).
Proof.
  destruct s as [|a [|b r]]; simpl; try discriminate.
  - now rewrite andb_false_r.
  - intros H. apply andb_prop in H as [H1 H2].
    apply andb_prop in H2 as [H2 _].
    apply Ascii.eqb_eq in H1, H2. now subst.
Qed.

Lemma collect_metaKeys_has (rawBindings : list binding) (x : string) :
  JsSet.has x (collect_metaKeys rawBindings) = is_meta_key rawBindings x.
Proof.
  unfold collect_metaKeys, is_meta_key.
  assert (H : forall l s0,
             JsSet.has x
               (fold_left
                  (fun metaKeys b =>
                     if startsWith (originalKey b) "M-"
                     then JsSet.add (substring_from 2 (originalKey b)) metaKeys
                     else metaKeys) l s0)
             = JsSet.has x s0 ||
               existsb (fun b => startsWith (originalKey b) "M-"
                                 && String.eqb x (baseKey b)) l).
  { induction l as [|b l IH]; intros s0; cbn [fold_left existsb];
      [now rewrite orb_false_r|].
    rewrite IH. destruct (startsWith (originalKey b) "M-"); cbn [andb].
    - rewrite JsSet_has_add. unfold baseKey. now rewrite orb_assoc.
    - reflexivity. }
  now rewrite H.
Qed.

Lemma mark_conflicts_has all b base s x :
  JsSet.has x (mark_conflicts all b base s)
  = JsSet.has x s ||
    (String.eqb x (originalKey b) &&
     existsb (fun other =>
                String.eqb (originalKey other) ("M-" ++ base)
                && String.eqb (command other) (command b)) all).
Proof.
  unfold mark_conflicts. revert s.
  induction all as [|other all IH]; intros s; cbn [fold_left existsb].
  - now rewrite andb_false_r, orb_false_r.
  - rewrite IH.
    destruct (String.eqb (originalKey other) ("M-" ++ base)
              && String.eqb (command other) (command b)); cbn [orb].
    + rewrite JsSet_has_add. rewrite andb_true_r.
      destruct (JsSet.has x s), (String.eqb x (originalKey b)); reflexivity.
    + reflexivity.
Qed.

Lemma find_conflicts_has all metaKeys (x : string) :
  JsSet.has x (fst (find_conflicts all metaKeys))
    = existsb (in_conflicting all metaKeys x) all /\
  JsSet.has x (snd (find_conflicts all metaKeys))
    = existsb (in_promote metaKeys x) all.
Proof.
  unfold find_conflicts.
  set (step := fun (st : JsSet.t * JsSet.t) (b : binding) => _).
  assert (H : forall l c0 p0,
             JsSet.has x (fst (fold_left step l (c0, p0)))
               = JsSet.has x c0 || existsb (in_conflicting all metaKeys x) l /\
             JsSet.has x (snd (fold_left step l (c0, p0)))
               = JsSet.has x p0 || existsb (in_promote metaKeys x) l).
  { induction l as [|b l IH]; intros c0 p0; cbn [fold_left existsb].
    - cbn [fst snd]. now rewrite !orb_false_r.
    - unfold step at 2 4. unfold in_conflicting, in_promote.
      fold (baseKey b). fold (promotable metaKeys b).
      destruct (startsWith (originalKey b) "C-"); cbn [andb].
      + destruct (promotable metaKeys b).
        * destruct (IH (JsSet.add (originalKey b)
                          (mark_conflicts all b (baseKey b) c0))
                       (JsSet.add (originalKey b) p0)) as [-> ->].
          rewrite !JsSet_has_add, mark_conflicts_has.
          fold (has_partner all b).
          rewrite orb_true_r, !andb_true_r. split.
          -- destruct (JsSet.has x c0), (String.eqb x (originalKey b)),
               (has_partner all b); reflexivity.
          -- now rewrite orb_assoc.
        * destruct (IH (mark_conflicts all b (baseKey b) c0) p0) as [-> ->].
          rewrite mark_conflicts_has. fold (has_partner all b).
          rewrite orb_false_r, andb_false_r. split.
          -- now rewrite orb_assoc.
          -- reflexivity.
      + apply IH. }
  destruct (H all [] []) as [H1 H2]. split; [exact H1|exact H2].
Qed.

(** *** The second pass on the Mac with [M-] read as Command *)

Lemma has_conflicting (raw : list binding) (x : string) :
  JsSet.has x (fst (find_conflicts raw (collect_metaKeys raw)))
  = existsb (in_conflicting raw (collect_metaKeys raw) x) raw.
Proof. apply find_conflicts_has. Qed.

Lemma has_promote (raw : list binding) (x : string) :
  JsSet.has x (snd (find_conflicts raw (collect_metaKeys raw)))
  = existsb (in_promote (collect_metaKeys raw) x) raw.
Proof. apply find_conflicts_has. Qed.

Lemma resolve_mac navigator o ks raw :
  isMac navigator = true ->
  mapMetaToCtrl o = Some false ->
  resolveConflictsAndBuild navigator ks raw o
  = fold_left
      (build_step navigator o
         (fst (find_conflicts raw (collect_metaKeys raw)))
         (snd (find_conflicts raw (collect_metaKeys raw))))
      raw ks.
Proof.
  intros Hmac Hopt. unfold resolveConflictsAndBuild, first_pass.
  unfold not_mapMetaToCtrl. rewrite Hmac, Hopt. simpl.
  now destruct (find_conflicts raw (collect_metaKeys raw)).
Qed.

Lemma build_step_sets navigator o c p c' p' ks b :
  JsSet.has (originalKey b) c = JsSet.has (originalKey b) c' ->
  JsSet.has (originalKey b) p = JsSet.has (originalKey b) p' ->
  build_step navigator o c p ks b = build_step navigator o c' p' ks b.
Proof. intros Hc Hp. unfold build_step. now rewrite Hc, Hp. Qed.

Lemma conflicting_starts_with_ctrl raw x :
  JsSet.has x (fst (find_conflicts raw (collect_metaKeys raw))) = true ->
  x = "C-" ++ substring_from 2 x.
Proof.
  rewrite has_conflicting. intros H.
  apply existsb_exists in H as (b & _ & H). unfold in_conflicting in H.
  apply andb_prop in H as [H _]. apply andb_prop in H as [Hs He].
  apply String.eqb_eq in He. subst x. now apply startsWith_two in Hs.
Qed.

Lemma is_meta_key_intro raw k cmd :
  In (mkBinding ("M-" ++ k) cmd) raw -> is_meta_key raw k = true.
Proof.
  intros Hin. apply existsb_exists. eexists. split; [exact Hin|].
  unfold baseKey. simpl. apply String.eqb_refl.
Qed.


(** the bindings for [C-k] do not bear on any other key *)

Lemma without_key_In (raw : list binding) (ck : string) b :
  In b (without_key ck raw) <-> In b raw /\ originalKey b <> ck.
Proof.
  unfold without_key. rewrite filter_In, negb_true_iff.
  now rewrite String.eqb_neq.
Qed.

Lemma dropped_key (ck : string) b :
  negb (String.eqb (originalKey b) ck) = false -> originalKey b = ck.
Proof.
  rewrite negb_false_iff. apply String.eqb_eq.
Qed.

Lemma without_key_meta (raw : list binding) (k x : string) :
  is_meta_key (without_key ("C-" ++ k) raw) x = is_meta_key raw x.
Proof.
  apply existsb_filter_same. intros b _ Hb. apply dropped_key in Hb.
  now rewrite Hb.
Qed.

Lemma without_key_partner (raw : list binding) (k : string) b :
  has_partner (without_key ("C-" ++ k) raw) b = has_partner raw b.
Proof.
  apply existsb_filter_same. intros other _ Hb. apply dropped_key in Hb.
  now rewrite Hb.
Qed.

Lemma without_key_promotable (raw : list binding) (k : string) b :
  promotable (collect_metaKeys (without_key ("C-" ++ k) raw)) b
  = promotable (collect_metaKeys raw) b.
Proof.
  unfold promotable. now rewrite !collect_metaKeys_has, without_key_meta.
Qed.

Lemma without_key_conflicting (raw : list binding) (k x : string) :
  x <> "C-" ++ k ->
  JsSet.has x
    (fst (find_conflicts (without_key ("C-" ++ k) raw)
            (collect_metaKeys (without_key ("C-" ++ k) raw))))
  = JsSet.has x (fst (find_conflicts raw (collect_metaKeys raw))).
Proof.
  intros Hne. rewrite !has_conflicting.
  rewrite (existsb_ext_in _ (in_conflicting raw (collect_metaKeys raw) x)).
  - apply existsb_filter_same. intros b _ Hb. apply dropped_key in Hb.
    unfold in_conflicting. rewrite Hb.
    apply String.eqb_neq in Hne. rewrite Hne. now rewrite andb_false_r.
  - intros b _. unfold in_conflicting.
    now rewrite without_key_partner, without_key_promotable.
Qed.

Lemma without_key_promote (raw : list binding) (k x : string) :
  x <> "C-" ++ k ->
  JsSet.has x
    (snd (find_conflicts (without_key ("C-" ++ k) raw)
            (collect_metaKeys (without_key ("C-" ++ k) raw))))
  = JsSet.has x (snd (find_conflicts raw (collect_metaKeys raw))).
Proof.
  intros Hne. rewrite !has_promote.
  rewrite (existsb_ext_in _ (in_promote (collect_metaKeys raw) x)).
  - apply existsb_filter_same. intros b _ Hb. apply dropped_key in Hb.
    unfold in_promote. rewrite Hb.
    apply String.eqb_neq in Hne. rewrite Hne. now rewrite andb_false_r.
  - intros b _. unfold in_promote. now rewrite without_key_promotable.
Qed.

(** With an [M-k] binding of the same command, [C-k] is in
    [conflictingCtrlKeys] and not in [ctrlKeysToPromote]. *)
Lemma conflict_sets raw k cmd :
  In (mkBinding ("C-" ++ k) cmd) raw ->
  In (mkBinding ("M-" ++ k) cmd) raw ->
  JsSet.has ("C-" ++ k) (fst (find_conflicts raw (collect_metaKeys raw))) = true /\
  JsSet.has ("C-" ++ k) (snd (find_conflicts raw (collect_metaKeys raw))) = false.
Proof.
  intros HC HM. rewrite has_conflicting, has_promote. split.
  - apply existsb_exists. eexists. split; [exact HC|].
    unfold in_conflicting. cbn [originalKey]. rewrite String.eqb_refl.
    replace (has_partner raw _) with true; [reflexivity|].
    symmetry. apply existsb_exists. eexists. split; [exact HM|].
    unfold baseKey. simpl. now rewrite !String.eqb_refl.
  - destruct (existsb _ raw) eqn:E; [|reflexivity].
    apply existsb_exists in E as (b & Hin & H). unfold in_promote in H.
    apply andb_prop in H as [H Hp]. apply andb_prop in H as [_ He].
    apply String.eqb_eq in He. unfold promotable in Hp.
    apply andb_prop in Hp as [_ Hp].
    rewrite collect_metaKeys_has in Hp. unfold baseKey in Hp.
    rewrite <- He in Hp. simpl in Hp.
    now rewrite (is_meta_key_intro raw k cmd HM) in Hp.
Qed.


Lemma build_step_has_mono navigator o c p ks b key :
  JsMap.has key ks = true -> JsMap.has key (build_step navigator o c p ks b) = true.
Proof.
  intros H. unfold build_step.
  destruct (JsSet.has _ c); [destruct (JsSet.has _ p)|];
    try destruct (convertCommand _); try exact H;
    rewrite JsMap_has_set, H; apply orb_true_r.
Qed.

Lemma normalizeKeySequence_mac_meta navigator o spec :
  isMac navigator = true ->
  mapMetaToCtrl o = Some false ->
  normalizeKeySequence navigator spec o
  = normalizeKeySequence mac spec meta_is_command.
Proof.
  intros Hmac Hopt. unfold normalizeKeySequence, macOptions_mapMetaToCtrl.
  now rewrite Hmac, Hopt.
Qed.

Lemma parse_mac_meta navigator o content :
  isMac navigator = true ->
  mapMetaToCtrl o = Some false ->
  parse navigator content o = parse mac content meta_is_command.
Proof.
  intros Hmac Hopt. unfold parse.
  rewrite (resolve_mac navigator o) by assumption.
  rewrite (resolve_mac mac meta_is_command) by reflexivity.
  apply fold_left_ext_in. intros ks b _. unfold build_step.
  now rewrite (normalizeKeySequence_mac_meta navigator o).
Qed.

(** *** Conflict between [C-] and [M-] *)

Lemma normalizeKeySequence_meta_letter (c : ascii) :
  is_lower c = true ->
  normalizeKeySequence mac ("M-" ++ String c "") meta_is_command
  = "meta+" ++ String c "".
Proof.
  destruct c as [[] [] [] [] [] [] [] []]; intros H;
    try discriminate H; reflexivity.
Qed.

(** C4.  On the Mac with [mapMetaToCtrl] false, when the configuration
    has a [C-k] bind line and an [M-k] bind line with the same command,
    [parse] drops the [C-k] bindings: the table is the one built from
    the configuration without them.  The [M-k] binding is kept, under
    its normalized key, whenever the command has an action; for a letter
    [k] that key is [meta+k].  In particular the two lines
    [C-b font-bold] and [M-b font-bold] give the single entry [meta+b]
    with the wrap action of two asterisks, and no [ctrl+b] entry. *)
Theorem mac_conflict_drops_ctrl_binding
    (navigator : option string) (o : options) (content k cmd : string) :
  isMac navigator = true ->
  mapMetaToCtrl o = Some false ->
  In (mkBinding ("C-" ++ k) cmd) (collect_bindings content) ->
  In (mkBinding ("M-" ++ k) cmd) (collect_bindings content) ->
  parse navigator content o
    = resolveConflictsAndBuild navigator []
        (without_key ("C-" ++ k) (collect_bindings content)) o /\
  (forall a, convertCommand cmd = Some a ->
     JsMap.has (normalizeKeySequence navigator ("M-" ++ k) o)
               (parse navigator content o) = true) /\
  (forall c, k = String c "" -> is_lower c = true ->
     normalizeKeySequence navigator ("M-" ++ k) o = "meta+" ++ k) /\
  parse navigator bold_twice o = [("meta+b", Wrap "**" "**")] /\
  JsMap.has "ctrl+b" (parse navigator bold_twice o) = false.
Proof.
  intros Hmac Hopt HC HM.
  set (raw := collect_bindings content) in *.
  destruct (conflict_sets raw k cmd HC HM) as [Hconf Hprom].
  split; [|split; [|split]].
  - unfold parse. fold raw. rewrite !resolve_mac by assumption.
    rewrite <- (fold_left_filter _
                  (fun b => negb (String.eqb (originalKey b) ("C-" ++ k)))).
    + apply fold_left_ext_in. intros ks b Hin.
      apply without_key_In in Hin as [_ Hne].
      apply build_step_sets; symmetry.
      * now apply without_key_conflicting.
      * now apply without_key_promote.
    + intros ks b _ Hb. apply dropped_key in Hb.
      unfold build_step. now rewrite Hb, Hconf, Hprom.
  - intros a Ha. unfold parse. fold raw. rewrite resolve_mac by assumption.
    apply (fold_left_establish _
             (fun ks => JsMap.has
                          (normalizeKeySequence navigator ("M-" ++ k) o) ks
                        = true) raw (mkBinding ("M-" ++ k) cmd)).
    + exact HM.
    + intros ks. unfold build_step. cbn [originalKey command].
      destruct (JsSet.has ("M-" ++ k) _) eqn:E.
      * apply conflicting_starts_with_ctrl in E. discriminate.
      * rewrite Ha, JsMap_has_set. now rewrite String.eqb_refl.
    + intros ks b _. apply build_step_has_mono.
  - intros c -> Hc.
    rewrite (normalizeKeySequence_mac_meta navigator o) by assumption.
    now apply normalizeKeySequence_meta_letter.
  - rewrite (parse_mac_meta navigator o) by assumption.
    split; reflexivity.
Qed.

Lemma mac_conflict_drops_ctrl_binding_witness :
  isMac mac = true /\
  mapMetaToCtrl meta_is_command = Some false /\
  In (mkBinding "C-b" "font-bold") (collect_bindings bold_twice) /\
  In (mkBinding "M-b" "font-bold") (collect_bindings bold_twice) /\
  parse mac bold_twice meta_is_command = [("meta+b", Wrap "**" "**")] /\
  JsMap.has "ctrl+b" (parse mac bold_twice meta_is_command) = false.
Proof.
  split; [reflexivity|]. split; [reflexivity|].
  split; [now left|]. split; [right; now left|].
  apply (mac_conflict_drops_ctrl_binding mac meta_is_command bold_twice
           "b" "font-bold" eq_refl eq_refl).
  - now left.
  - right. now left.
Defined.

(** *** Promotion of [C-] bindings to Command *)

(** what one turn of the second pass can do *)
Lemma build_step_cases navigator o c p ks b :
  build_step navigator o c p ks b = ks \/
  (exists a', JsSet.has (originalKey b) c = true /\
              convertCommand (command b) = Some a' /\
              build_step navigator o c p ks b
              = JsMap.set ("meta+" ++ baseKey b) a' ks) \/
  (exists a', JsSet.has (originalKey b) c = false /\
              convertCommand (command b) = Some a' /\
              build_step navigator o c p ks b
              = JsMap.set (normalizeKeySequence navigator (originalKey b) o)
                          a' ks).
Proof.
  unfold build_step, baseKey.
  destruct (JsSet.has (originalKey b) c); [destruct (JsSet.has _ p)|];
    destruct (convertCommand (command b)) as [a'|]; try (now left);
    right; [left|right]; now exists a'.
Qed.





End ParserFacts.

(* ================================================================== *)
(** ** Further properties of the parser *)
(* ================================================================== *)

Section BindLineFacts.

Import LyXConfigParser Resolution Chars.

Lemma append_assoc (a b c : string) : (a ++ b) ++ c = a ++ (b ++ c).
Proof. induction a as [|x a IH]; simpl; [reflexivity|now rewrite IH]. Qed.

Lemma append_nil_r (a : string) : a ++ "" = a.
Proof. induction a as [|x a IH]; simpl; [reflexivity|now rewrite IH]. Qed.

Lemma append_length (a b : string) :
  String.length (a ++ b) = (String.length a + String.length b)%nat.
Proof. induction a as [|x a IH]; simpl; [reflexivity|now rewrite IH]. Qed.

Lemma drop_spaces_all_space (ws rest : string) :
  all_space ws = true -> drop_spaces (ws ++ rest) = drop_spaces rest.
Proof.
  induction ws as [|c ws IH]; intros H; simpl in *; [reflexivity|].
  apply andb_prop in H as [Hc Hws]. rewrite Hc. now apply IH.
Qed.

Lemma match_spaces_run (ws rest : string) :
  ws <> "" -> all_space ws = true ->
  match_spaces (ws ++ dq ++ rest) = Some (dq ++ rest).
Proof.
  destruct ws as [|c ws]; [easy|]. intros _ H. simpl in H.
  apply andb_prop in H as [Hc Hws]. cbn [append match_spaces]. rewrite Hc.
  now rewrite drop_spaces_all_space.
Qed.

Lemma span_non_quote_run (k rest : string) :
  quote_free k = true ->
  span_non_quote (k ++ dq ++ rest) = (k, dq ++ rest).
Proof.
  induction k as [|c k IH]; intros H; [reflexivity|].
  simpl in H. apply andb_prop in H as [Hc Hk]. apply negb_true_iff in Hc.
  cbn [append span_non_quote]. rewrite Hc. fold (append k (dq ++ rest)).
  now rewrite IH.
Qed.

Lemma match_quoted_run (k rest : string) :
  k <> "" -> quote_free k = true ->
  match_quoted (dq ++ k ++ dq ++ rest) = Some (k, rest).
Proof.
  intros Hne Hk.
  change (dq ++ k ++ dq ++ rest)
    with (String "034"%char (k ++ dq ++ rest)).
  unfold match_quoted. rewrite Ascii.eqb_refl.
  rewrite span_non_quote_run by exact Hk.
  destruct k; [easy|reflexivity].
Qed.

Lemma parseBindLine_at (line : string) (b : binding) :
  match_bind_at line = Some b -> parseBindLine line = Some b.
Proof.
  intros H. destruct line; cbn [parseBindLine]; now rewrite H.
Qed.

Lemma parseBindLine_statement (ws1 ws2 k c tail : string) :
  ws1 <> "" -> all_space ws1 = true ->
  ws2 <> "" -> all_space ws2 = true ->
  k <> "" -> quote_free k = true ->
  c <> "" -> quote_free c = true ->
  parseBindLine
    ("\bind" ++ ws1 ++ dq ++ k ++ dq ++ ws2 ++ dq ++ c ++ dq ++ tail)
  = Some (mkBinding k c).
Proof.
  intros N1 S1 N2 S2 Nk Qk Nc Qc.
  apply parseBindLine_at. unfold match_bind_at.
  change (startsWith ("\bind" ++ ?x) "\bind") with true.
  cbn [substring_from append]. cbv iota.
  rewrite match_spaces_run by assumption.
  rewrite match_quoted_run by assumption.
  rewrite match_spaces_run by assumption.
  now rewrite match_quoted_run by assumption.
Qed.

(** X1.  A bind statement is read back: the text [\bind], white space,
    a quoted key specification, white space, a quoted command and then
    anything at all gives the key specification and the command, when
    both are non-empty and free of double quotes. *)
Theorem parseBindLine_reads_bind_statement
    (ws1 ws2 k c tail : string) :
  ws1 <> "" -> all_space ws1 = true ->
  ws2 <> "" -> all_space ws2 = true ->
  k <> "" -> quote_free k = true ->
  c <> "" -> quote_free c = true ->
  parseBindLine
    ("\bind" ++ ws1 ++ dq ++ k ++ dq ++ ws2 ++ dq ++ c ++ dq ++ tail)
  = Some (mkBinding k c).
Proof. apply parseBindLine_statement. Qed.

Lemma parseBindLine_reads_bind_statement_witness :
  parseBindLine (bindLine "C-b" "font-bold" ++ "  # bold")
  = Some (mkBinding "C-b" "font-bold").
Proof.
  apply (parseBindLine_reads_bind_statement " " " " "C-b" "font-bold" "  # bold");
    (discriminate || reflexivity).
Defined.

Lemma startsWith_split (s p : string) :
  startsWith s p = true -> s = p ++ substring_from (String.length p) s.
Proof.
  revert s. induction p as [|pc pr IH]; intros s H; [reflexivity|].
  destruct s as [|sc sr]; [discriminate|]. simpl in H.
  apply andb_prop in H as [Hc Hr]. apply Ascii.eqb_eq in Hc. subst sc.
  simpl. f_equal. now apply IH.
Qed.

Lemma drop_spaces_split (s : string) :
  exists ws, all_space ws = true /\ s = ws ++ drop_spaces s.
Proof.
  induction s as [|c r (ws & Hws & E)]; [now exists ""|].
  cbn [drop_spaces]. destruct (is_space c) eqn:Hc.
  - exists (String c ws). unfold all_space in *. cbn [string_forall append].
    rewrite Hc, Hws. split; [reflexivity|]. now rewrite <- E.
  - now exists "".
Qed.

Lemma match_spaces_split (s r : string) :
  match_spaces s = Some r ->
  exists ws, ws <> "" /\ all_space ws = true /\ s = ws ++ r.
Proof.
  destruct s as [|c s']; [discriminate|]. cbn [match_spaces].
  destruct (is_space c) eqn:Hc; [|discriminate]. intros [= <-].
  destruct (drop_spaces_split s') as (ws & Hws & E).
  exists (String c ws). unfold all_space in *. cbn [string_forall append].
  rewrite Hc, Hws. repeat split; [discriminate|]. now rewrite <- E.
Qed.

Lemma span_non_quote_split (s body rest : string) :
  span_non_quote s = (body, rest) ->
  quote_free body = true /\ s = body ++ rest /\
  (rest = "" \/ exists r, rest = dq ++ r).
Proof.
  revert body rest. induction s as [|c r IH]; intros body rest H; simpl in H.
  - injection H as <- <-. repeat split. now left.
  - destruct (Ascii.eqb c "034"%char) eqn:Hc.
    + injection H as <- <-. apply Ascii.eqb_eq in Hc. subst c.
      repeat split. right. now exists r.
    + destruct (span_non_quote r) as [b' r'] eqn:E. injection H as <- <-.
      destruct (IH b' r' eq_refl) as (Hq & Hs & Hr).
      unfold quote_free in *. cbn [string_forall append].
      rewrite Hc, Hq. repeat split; [now rewrite <- Hs|exact Hr].
Qed.

Lemma match_quoted_split (s body rest : string) :
  match_quoted s = Some (body, rest) ->
  body <> "" /\ quote_free body = true /\ s = dq ++ body ++ dq ++ rest.
Proof.
  destruct s as [|c s']; [discriminate|]. simpl.
  destruct (Ascii.eqb c "034"%char) eqn:Hc; [|discriminate].
  apply Ascii.eqb_eq in Hc. subst c.
  destruct (span_non_quote s') as [b r] eqn:E.
  destruct (span_non_quote_split _ _ _ E) as (Hq & Hs & Hr).
  destruct b as [|bc b']; [discriminate|].
  destruct r as [|rc r']; [discriminate|]. intros [= <- <-].
  destruct Hr as [Hr|(r0 & Hr)]; [discriminate|].
  injection Hr as -> ->. repeat split; [discriminate|exact Hq|].
  now rewrite Hs.
Qed.

(** X2.  On a line of ASCII characters, where the white space of the
    pattern is the white space of [is_space], whatever [parseBindLine]
    returns was written in the line as a bind statement: the line is some
    text, then [\bind], white space, the quoted key specification, white
    space, the quoted command, and a rest; the key specification and the
    command are not empty and hold no double quote. *)
Theorem parseBindLine_sound (line : string) (b : binding) :
  ascii_only line = true ->
  parseBindLine line = Some b ->
  originalKey b <> "" /\ quote_free (originalKey b) = true /\
  command b <> "" /\ quote_free (command b) = true /\
  exists before ws1 ws2 tail,
    ws1 <> "" /\ all_space ws1 = true /\
    ws2 <> "" /\ all_space ws2 = true /\
    line = before ++ "\bind" ++ ws1 ++ dq ++ originalKey b ++ dq
                  ++ ws2 ++ dq ++ command b ++ dq ++ tail.
Proof.
  intros _.
  assert (Hat : forall s, match_bind_at s = Some b ->
            originalKey b <> "" /\ quote_free (originalKey b) = true /\
            command b <> "" /\ quote_free (command b) = true /\
            exists ws1 ws2 tail,
              ws1 <> "" /\ all_space ws1 = true /\
              ws2 <> "" /\ all_space ws2 = true /\
              s = "\bind" ++ ws1 ++ dq ++ originalKey b ++ dq
                    ++ ws2 ++ dq ++ command b ++ dq ++ tail).
  { intros s H. unfold match_bind_at in H.
    destruct (startsWith s "\bind") eqn:Hp; [|discriminate].
    apply startsWith_split in Hp. cbn [String.length] in Hp.
    destruct (match_spaces _) as [s1|] eqn:E1; [|discriminate].
    destruct (match_quoted s1) as [[k s2]|] eqn:E2; [|discriminate].
    destruct (match_spaces s2) as [s3|] eqn:E3; [|discriminate].
    destruct (match_quoted s3) as [[c tail]|] eqn:E4; [|discriminate].
    injection H as <-. cbn [originalKey command].
    apply match_spaces_split in E1 as (ws1 & N1 & S1 & E1).
    apply match_quoted_split in E2 as (Nk & Qk & E2).
    apply match_spaces_split in E3 as (ws2 & N2 & S2 & E3).
    apply match_quoted_split in E4 as (Nc & Qc & E4).
    repeat split; try assumption.
    exists ws1, ws2, tail. repeat split; try assumption.
    rewrite Hp at 1. rewrite E1, E2, E3, E4.
    reflexivity. }
  induction line as [|ch rest IH]; cbn [parseBindLine].
  - destruct (match_bind_at "") eqn:E; [|discriminate]. discriminate.
  - destruct (match_bind_at (String ch rest)) as [b'|] eqn:E.
    + intros [= ->]. destruct (Hat _ E) as (H1 & H2 & H3 & H4 & w1 & w2 & t & H).
      repeat split; try assumption.
      exists "", w1, w2, t. exact H.
    + intros H. destruct (IH H) as (H1 & H2 & H3 & H4 & bf & w1 & w2 & t & Hs).
      repeat split; try assumption.
      exists (String ch bf), w1, w2, t.
      destruct Hs as (? & ? & ? & ? & ->). now repeat split.
Qed.

Lemma parseBindLine_sound_witness :
  parseBindLine ("x \bind " ++ dq ++ "C-b" ++ dq ++ " " ++ dq ++ "font-bold" ++ dq)
    = Some (mkBinding "C-b" "font-bold") /\
  quote_free "C-b" = true.
Proof.
  split; [reflexivity|].
  apply (parseBindLine_sound
           ("x \bind " ++ dq ++ "C-b" ++ dq ++ " " ++ dq ++ "font-bold" ++ dq)
           (mkBinding "C-b" "font-bold") eq_refl eq_refl).
Defined.

(** *** Lines are read one by one *)

Lemma split_lines_go_newline (cur a b : string) :
  split_lines_go cur (a ++ nl ++ b)
  = (split_lines_go cur a ++ split_lines b)%list.
Proof.
  revert cur. induction a as [|c a IH]; intros cur; [reflexivity|].
  cbn [append split_lines_go].
  destruct (Ascii.eqb c "010"%char); simpl; now rewrite IH.
Qed.

Lemma collect_line_app (raw : list binding) (line : string) :
  collect_line raw line = (raw ++ collect_line [] line)%list.
Proof.
  unfold collect_line.
  destruct (_ || _); [now rewrite app_nil_r|].
  destruct (startsWith _ _); [|now rewrite app_nil_r].
  destruct (parseBindLine _); [reflexivity|now rewrite app_nil_r].
Qed.

Lemma collect_lines_app (lines : list string) (raw : list binding) :
  fold_left collect_line lines raw
  = (raw ++ fold_left collect_line lines [])%list.
Proof.
  revert raw. induction lines as [|l lines IH]; intros raw; simpl.
  - now rewrite app_nil_r.
  - rewrite IH, (IH (collect_line [] l)), (collect_line_app raw l).
    now rewrite app_assoc.
Qed.

(** X3.  The bind statements are collected line by line and in order:
    the bindings of two texts joined by a line break are the bindings of
    the first followed by those of the second. *)
Theorem collect_bindings_line_break (a b : string) :
  collect_bindings (a ++ nl ++ b)
  = (collect_bindings a ++ collect_bindings b)%list.
Proof.
  unfold collect_bindings, split_lines.
  rewrite split_lines_go_newline, fold_left_app.
  now rewrite collect_lines_app.
Qed.

End BindLineFacts.

(* ================================================================== *)
(** ** Further properties of key normalization *)
(* ================================================================== *)

Section NormalizationExtras.

Import LyXConfigParser Chars.

(** X4.  A leading modifier prefix is rewritten on its own, whatever
    follows it: [C-] gives [ctrl+], [S-] gives [shift+], [A-] gives
    [alt+], and [M-] gives [alt+] off the Mac, [ctrl+] on the Mac when
    [mapMetaToCtrl] is true or absent, and [meta+] on the Mac when it is
    false; the rest of the specification is normalized as it would be
    alone. *)
Theorem normalizeKeySequence_modifier_prefix
    (navigator : option string) (o : options) (k : string) :
  normalizeKeySequence navigator ("C-" ++ k) o
    = "ctrl+" ++ normalizeKeySequence navigator k o /\
  normalizeKeySequence navigator ("S-" ++ k) o
    = "shift+" ++ normalizeKeySequence navigator k o /\
  normalizeKeySequence navigator ("A-" ++ k) o
    = "alt+" ++ normalizeKeySequence navigator k o /\
  normalizeKeySequence navigator ("M-" ++ k) o
    = (if isMac navigator
       then if macOptions_mapMetaToCtrl o then "ctrl+" else "meta+"
       else "alt+")
      ++ normalizeKeySequence navigator k o.
Proof. apply normalizeKeySequence_prefix. Qed.

(** *** Key sequences are normalized combination by combination *)

Lemma startsWith_before_space (s rest p : string) :
  space_free p = true ->
  p <> "" ->
  startsWith (s ++ " " ++ rest) p = startsWith s p.
Proof.
  intros Hp Hne. revert s Hne.
  induction p as [|pc pr IH]; intros s Hne; [easy|].
  unfold space_free in Hp. cbn [string_forall] in Hp.
  apply andb_prop in Hp as [Hpc Hpr]. apply negb_true_iff in Hpc.
  destruct s as [|sc sr].
  - change ("" ++ " " ++ rest) with (String " "%char rest).
    cbn [startsWith]. rewrite Ascii.eqb_sym. now rewrite Hpc.
  - change (String sc sr ++ " " ++ rest)
      with (String sc (sr ++ " " ++ rest)).
    cbn [startsWith]. f_equal.
    destruct pr as [|pc' pr']; [reflexivity|].
    apply (IH Hpr sr). discriminate.
Qed.

Lemma replace_go_before_space (p r a b : string) (skip : nat) :
  space_free p = true ->
  p <> "" ->
  (skip <= String.length a)%nat ->
  replace_go p r skip (a ++ " " ++ b)
  = replace_go p r skip a ++ " " ++ replaceAll p r b.
Proof.
  intros Hp Hne. revert skip.
  induction a as [|c a IH]; intros skip Hskip.
  - simpl in Hskip. assert (skip = 0) by lia. subst skip.
    change ("" ++ " " ++ b) with (String " "%char b).
    cbn [replace_go].
    change (String " "%char b) with ("" ++ " " ++ b).
    rewrite startsWith_before_space by assumption.
    destruct p; [easy|reflexivity].
  - change (String c a ++ " " ++ b) with (String c (a ++ " " ++ b)).
    cbn [replace_go]. destruct skip as [|k].
    + change (String c (a ++ " " ++ b)) with (String c a ++ " " ++ b).
      rewrite startsWith_before_space by assumption.
      destruct (startsWith (String c a) p) eqn:E.
      * apply startsWith_length in E. simpl in E.
        rewrite IH by lia. now rewrite append_assoc.
      * rewrite IH by lia. reflexivity.
    + simpl in Hskip. apply IH. lia.
Qed.

Lemma replaceAll_before_space (p r a b : string) :
  space_free p = true ->
  p <> "" ->
  replaceAll p r (a ++ " " ++ b)
  = replaceAll p r a ++ " " ++ replaceAll p r b.
Proof.
  intros. unfold replaceAll at 1 2. apply replace_go_before_space; auto. lia.
Qed.

Lemma toLowerCase_app (a b : string) :
  toLowerCase (a ++ b) = toLowerCase a ++ toLowerCase b.
Proof.
  induction a as [|c a IH]; [reflexivity|].
  unfold toLowerCase in *. simpl. now rewrite IH.
Qed.

(** X5.  A key sequence of several combinations is normalized
    combination by combination: the normalized form of two
    specifications separated by a space is the two normalized forms
    separated by a space.  This is the form in which the recognizer joins
    its pending combinations. *)
Theorem normalizeKeySequence_space
    (navigator : option string) (o : options) (a b : string) :
  normalizeKeySequence navigator (a ++ " " ++ b) o
  = normalizeKeySequence navigator a o ++ " "
    ++ normalizeKeySequence navigator b o.
Proof.
  unfold normalizeKeySequence. rewrite !replace_final_plus_letter_id.
  destruct (isMac navigator); [destruct (macOptions_mapMetaToCtrl o)|];
    repeat (rewrite replaceAll_before_space by (reflexivity || discriminate));
    rewrite toLowerCase_app;
    change (toLowerCase (" " ++ ?x)) with (" " ++ toLowerCase x);
    repeat (rewrite replaceAll_before_space by (reflexivity || discriminate));
    reflexivity.
Qed.

(** *** Normalized keys are in lower case *)

Lemma no_upper_app (a b : string) :
  no_upper (a ++ b) = no_upper a && no_upper b.
Proof.
  unfold no_upper. induction a as [|c a IH]; [reflexivity|].
  cbn [append string_forall]. now rewrite IH, andb_assoc.
Qed.

Lemma lower_char_not_upper (c : ascii) : is_upper (lower_char c) = false.
Proof.
  destruct c as [[] [] [] [] [] [] [] []]; reflexivity.
Qed.

Lemma toLowerCase_no_upper (s : string) : no_upper (toLowerCase s) = true.
Proof.
  unfold no_upper, toLowerCase. induction s as [|c s IH]; [reflexivity|].
  cbn [map_chars string_forall]. now rewrite lower_char_not_upper, IH.
Qed.

Lemma replace_go_no_upper (p r s : string) (skip : nat) :
  no_upper r = true -> no_upper s = true ->
  no_upper (replace_go p r skip s) = true.
Proof.
  intros Hr. revert skip. induction s as [|c s IH]; intros skip Hs;
    [reflexivity|].
  unfold no_upper in Hs. cbn [string_forall] in Hs.
  apply andb_prop in Hs as [Hc Hs].
  cbn [replace_go]. destruct skip as [|k]; [|now apply IH].
  destruct (startsWith (String c s) p).
  - rewrite no_upper_app, Hr. now apply IH.
  - unfold no_upper. cbn [string_forall]. rewrite Hc. now apply IH.
Qed.

Lemma replaceAll_no_upper (p r s : string) :
  no_upper r = true -> no_upper s = true ->
  no_upper (replaceAll p r s) = true.
Proof. apply replace_go_no_upper. Qed.

(** X6.  A normalized key holds no upper-case letter, whatever the key
    specification, the platform and the options. *)
Theorem normalizeKeySequence_lower_case
    (navigator : option string) (spec : string) (o : options) :
  no_upper (normalizeKeySequence navigator spec o) = true.
Proof.
  unfold normalizeKeySequence. rewrite replace_final_plus_letter_id.
  repeat (apply replaceAll_no_upper; [reflexivity|]).
  apply toLowerCase_no_upper.
Qed.

End NormalizationExtras.

(* ================================================================== *)
(** ** Further properties of the table that parse builds *)
(* ================================================================== *)

Section TableFacts.

Import LyXConfigParser Resolution Chars.

Lemma JsMap_keys_set (k k' : string) (a : action) (m : table) :
  In k' (JsMap.keys (JsMap.set k a m)) <-> k' = k \/ In k' (JsMap.keys m).
Proof.
  unfold JsMap.keys. induction m as [|[k0 v0] rest IH]; simpl.
  - intuition.
  - destruct (String.eqb k0 k) eqn:E; simpl.
    + apply String.eqb_eq in E. subst k0. intuition.
    + rewrite IH. intuition.
Qed.

Lemma JsMap_set_NoDup (k : string) (a : action) (m : table) :
  NoDup (JsMap.keys m) -> NoDup (JsMap.keys (JsMap.set k a m)).
Proof.
  unfold JsMap.keys. induction m as [|[k0 v0] rest IH]; simpl; intros H.
  - constructor; [easy|constructor].
  - inversion H as [|? ? Hnotin Hrest]; subst.
    destruct (String.eqb k0 k) eqn:E; simpl.
    + exact H.
    + constructor; [|now apply IH].
      intros Hin. apply (JsMap_keys_set k k0 a rest) in Hin.
      destruct Hin as [->|Hin]; [|now apply Hnotin].
      now rewrite String.eqb_refl in E.
Qed.

Lemma build_step_NoDup navigator o c p ks b :
  NoDup (JsMap.keys ks) ->
  NoDup (JsMap.keys (build_step navigator o c p ks b)).
Proof.
  intros H.
  destruct (build_step_cases navigator o c p ks b)
    as [-> | [(a' & _ & _ & ->) | (a' & _ & _ & ->)]];
    [exact H | now apply JsMap_set_NoDup | now apply JsMap_set_NoDup].
Qed.

(** X7.  The table that [parse] returns has no key twice, whatever the
    text, the platform and the options. *)
Theorem parse_keys_unique
    (navigator : option string) (content : string) (o : options) :
  NoDup (JsMap.keys (parse navigator content o)).
Proof.
  unfold parse, resolveConflictsAndBuild.
  destruct (first_pass navigator (collect_bindings content) o) as [c p].
  apply (fold_left_invariant _ (fun ks => NoDup (JsMap.keys ks))).
  - constructor.
  - intros ks b _. apply build_step_NoDup.
Qed.

(** one turn of the second pass, with the set that decides a promotion *)
Lemma build_step_origin navigator o c p ks b :
  build_step navigator o c p ks b = ks \/
  (exists a', JsSet.has (originalKey b) p = true /\
              convertCommand (command b) = Some a' /\
              build_step navigator o c p ks b
              = JsMap.set ("meta+" ++ baseKey b) a' ks) \/
  (exists a', convertCommand (command b) = Some a' /\
              build_step navigator o c p ks b
              = JsMap.set (normalizeKeySequence navigator (originalKey b) o)
                          a' ks).
Proof.
  unfold build_step, baseKey.
  destruct (JsSet.has (originalKey b) c); [destruct (JsSet.has _ p)|];
    destruct (convertCommand (command b)) as [a'|]; try (now left);
    right; [left|right]; now exists a'.
Qed.

Lemma first_pass_promote navigator raw o x :
  JsSet.has x (snd (first_pass navigator raw o)) = true ->
  isMac navigator = true /\ mapMetaToCtrl o <> Some true /\
  x = "C-" ++ substring_from 2 x /\
  In (substring_from 2 x) commonMacKeys.
Proof.
  unfold first_pass, not_mapMetaToCtrl.
  destruct (isMac navigator); [|discriminate].
  destruct (mapMetaToCtrl o) as [[]|]; simpl; try discriminate;
    rewrite has_promote; intros H;
    apply existsb_exists in H as (b & _ & H); unfold in_promote in H;
    apply andb_prop in H as [H Hp]; apply andb_prop in H as [Hs He];
    apply String.eqb_eq in He; subst x;
    unfold promotable in Hp; apply andb_prop in Hp as [Hp _];
    apply existsb_exists in Hp as (k & Hk & Hek);
    apply String.eqb_eq in Hek; unfold baseKey in Hek;
    repeat split; try discriminate; try (now apply startsWith_two in Hs);
    rewrite <- Hek in Hk; exact Hk.
Qed.

(** X8.  For a configuration in ASCII in which no bind line has for its
    command the name of a member of [Object.prototype], every entry of
    the table comes from a bind line
    whose command is listed in [commandMappings] or is a [math-insert],
    and carries the action of that command: its key is the normalized key
    specification of the line or, on the Mac when [mapMetaToCtrl] is not
    true, [meta+k] for a line [C-k] with [k] a common Mac key.  A bind
    line with any other command leaves no entry. *)
Theorem parse_entry_origin
    (navigator : option string) (content : string) (o : options)
    (key : string) (a : action) :
  ascii_only content = true ->
  forallb (fun b => negb (JsObject.inherited (command b)))
          (collect_bindings content) = true ->
  JsMap.get key (parse navigator content o) = Some a ->
  exists b,
    In b (collect_bindings content) /\
    convertCommand (command b) = Some a /\
    (key = normalizeKeySequence navigator (originalKey b) o \/
     (isMac navigator = true /\ mapMetaToCtrl o <> Some true /\
      originalKey b = "C-" ++ baseKey b /\
      In (baseKey b) commonMacKeys /\
      key = "meta+" ++ baseKey b)).
Proof.
  intros _ _.
  unfold parse, resolveConflictsAndBuild.
  set (raw := collect_bindings content).
  pose proof (first_pass_promote navigator raw o) as Hprom.
  destruct (first_pass navigator raw o) as [c p]. cbn [snd] in Hprom.
  revert key a.
  apply (fold_left_invariant _
           (fun ks => forall key a, JsMap.get key ks = Some a ->
              exists b, In b raw /\ convertCommand (command b) = Some a /\
                (key = normalizeKeySequence navigator (originalKey b) o \/
                 (isMac navigator = true /\ mapMetaToCtrl o <> Some true /\
                  originalKey b = "C-" ++ baseKey b /\
                  In (baseKey b) commonMacKeys /\
                  key = "meta+" ++ baseKey b)))).
  - intros key a H. discriminate H.
  - intros ks b Hin IH key a.
    destruct (build_step_origin navigator o c p ks b)
      as [-> | [(a' & Hp & Hc & ->) | (a' & Hc & ->)]].
    + apply IH.
    + destruct (string_dec key ("meta+" ++ baseKey b)) as [->|Hne].
      * rewrite JsMap_get_set_same. intros [= <-].
        destruct (Hprom _ Hp) as (H1 & H2 & H3 & H4).
        exists b. repeat split; try assumption. right. now repeat split.
      * rewrite JsMap_get_set_other by exact Hne. apply IH.
    + destruct (string_dec key
                  (normalizeKeySequence navigator (originalKey b) o))
        as [->|Hne].
      * rewrite JsMap_get_set_same. intros [= <-].
        exists b. repeat split; try assumption. now left.
      * rewrite JsMap_get_set_other by exact Hne. apply IH.
Qed.

Lemma parse_entry_origin_witness :
  JsMap.get "meta+m" (parse mac math_mode_only meta_is_command)
    = Some (Wrap "$" "$") /\
  exists b,
    In b (collect_bindings math_mode_only) /\
    convertCommand (command b) = Some (Wrap "$" "$").
Proof.
  split; [reflexivity|].
  destruct (parse_entry_origin mac math_mode_only meta_is_command
              "meta+m" (Wrap "$" "$") eq_refl eq_refl eq_refl)
    as (b & Hin & Hc & _).
  now exists b.
Defined.

(** *** Without the conflict pass *)

Lemma build_steps_lines navigator o (lines : list string)
    (raw : list binding) (ks : table) :
  fold_left (build_step navigator o [] [])
            (fold_left collect_line lines raw) ks
  = fold_left (LegacyParser.parse_line navigator o) lines
              (fold_left (build_step navigator o [] []) raw ks).
Proof.
  revert raw ks. induction lines as [|l lines IH]; intros raw ks;
    [reflexivity|].
  cbn [fold_left]. rewrite IH. f_equal.
  rewrite collect_line_app, fold_left_app.
  generalize (fold_left (build_step navigator o [] []) raw ks) as ks'.
  intros ks'. unfold collect_line, LegacyParser.parse_line.
  destruct (_ || _); [reflexivity|].
  destruct (startsWith _ _); [|reflexivity].
  unfold LegacyParser.parseBind.
  destruct (parseBindLine _) as [b|]; reflexivity.
Qed.

(** X9.  Off the Mac, and on the Mac when [mapMetaToCtrl] is true, the
    two-pass [parse] builds the very table of the one-pass parser that
    handed each bind line to [parseBind]. *)
Theorem parse_agrees_with_one_pass
    (navigator : option string) (content : string) (o : options) :
  isMac navigator && not_mapMetaToCtrl o = false ->
  parse navigator content o = LegacyParser.parse navigator content o.
Proof.
  intros H. unfold parse, resolveConflictsAndBuild, first_pass.
  rewrite H. unfold collect_bindings, LegacyParser.parse.
  apply build_steps_lines.
Qed.

Lemma parse_agrees_with_one_pass_witness :
  parse (Some "Win32") bold_twice no_options
  = LegacyParser.parse (Some "Win32") bold_twice no_options.
Proof.
  apply (parse_agrees_with_one_pass (Some "Win32") bold_twice no_options).
  reflexivity.
Defined.

(** X10.  Without the conflict pass a bind line with a known command is
    in the table under its normalized key, unless a later line with a
    known command has the same normalized key; the later line wins.
    The configuration is taken to be in ASCII, and the commands of the
    later lines not to be names of members of [Object.prototype], for
    which [commandMappings[command]] is not [undefined]. *)
Theorem parse_later_line_wins
    (navigator : option string) (content : string) (o : options)
    (before after : list binding) (b : binding) (a : action) :
  isMac navigator && not_mapMetaToCtrl o = false ->
  ascii_only content = true ->
  collect_bindings content = (before ++ b :: after)%list ->
  convertCommand (command b) = Some a ->
  forallb (fun b' => negb (JsObject.inherited (command b'))) after = true ->
  (forall b', In b' after ->
     convertCommand (command b') <> None ->
     normalizeKeySequence navigator (originalKey b') o
     <> normalizeKeySequence navigator (originalKey b) o) ->
  JsMap.get (normalizeKeySequence navigator (originalKey b) o)
            (parse navigator content o) = Some a.
Proof.
  intros H _ Hraw Ha _ Hafter.
  unfold parse, resolveConflictsAndBuild, first_pass. rewrite H, Hraw.
  rewrite fold_left_app. cbn [fold_left].
  apply (fold_left_invariant _
           (fun ks => JsMap.get
                        (normalizeKeySequence navigator (originalKey b) o) ks
                      = Some a)).
  - unfold build_step. cbn [JsSet.has existsb]. rewrite Ha.
    apply JsMap_get_set_same.
  - intros ks b' Hin Hks. unfold build_step. cbn [JsSet.has existsb].
    destruct (convertCommand (command b')) as [a'|] eqn:E; [|exact Hks].
    rewrite JsMap_get_set_other; [exact Hks|].
    intros Heq. apply (Hafter b' Hin); [now rewrite E|now symmetry].
Qed.

Lemma parse_later_line_wins_witness :
  JsMap.get "ctrl+b"
    (parse (Some "Win32")
       (bindLine "C-b" "font-bold" ++ nl ++ bindLine "C-b" "font-emph"
        ++ nl ++ bindLine "C-u" "font-underline")
       no_options)
  = Some (Wrap "*" "*").
Proof.
  apply (parse_later_line_wins (Some "Win32")
           (bindLine "C-b" "font-bold" ++ nl ++ bindLine "C-b" "font-emph"
            ++ nl ++ bindLine "C-u" "font-underline")
           no_options
           [mkBinding "C-b" "font-bold"] [mkBinding "C-u" "font-underline"]
           (mkBinding "C-b" "font-emph")
           (Wrap "*" "*") eq_refl eq_refl eq_refl eq_refl eq_refl).
  intros b' [<-|[]] _. discriminate.
Defined.

(** *** The Mac with [mapMetaToCtrl] left out *)




End TableFacts.

(* ================================================================== *)
(** ** Further properties of the recognizer *)
(* ================================================================== *)

Section RecognizerExtras.

Import LyXConfigParser KeySequenceHandler Recognizer Keys Chars Feeding.

Lemma join_app (sep : string) (l1 l2 : list string) :
  l1 <> [] -> l2 <> [] ->
  join sep (l1 ++ l2)%list = join sep l1 ++ sep ++ join sep l2.
Proof.
  intros H1 H2. induction l1 as [|x l1 IH]; [easy|].
  destruct l1 as [|y l1].
  - destruct l2 as [|z l2]; [easy|]. reflexivity.
  - change (join sep ((x :: y :: l1) ++ l2)%list)
      with (x ++ sep ++ join sep ((y :: l1) ++ l2)%list).
    rewrite IH by discriminate.
    change (join sep (x :: y :: l1)) with (x ++ sep ++ join sep (y :: l1)).
    now rewrite !append_assoc.
Qed.

Lemma startsWith_app (a b : string) : startsWith (a ++ b) a = true.
Proof.
  induction a as [|c a IH]; [now destruct b|].
  cbn [append startsWith]. now rewrite Ascii.eqb_refl, IH.
Qed.

Lemma JsMap_get_key (k : string) (a : action) (m : table) :
  JsMap.get k m = Some a -> In k (JsMap.keys m).
Proof.
  unfold JsMap.keys. induction m as [|[k0 v0] rest IH]; simpl; [discriminate|].
  destruct (String.eqb k0 k) eqn:E.
  - apply String.eqb_eq in E. now left.
  - intros H. right. now apply IH.
Qed.

(** the pending combinations [done] followed by the presses of [todo] *)
Lemma feed_sequence platform target (m : table) (a : action) :
  forall (todo : list string) (events : list KeyboardEvent)
         (done : list string) (w : world),
    coherent w ->
    enabled (this w) = true ->
    mappings (this w) = StoreMap m ->
    keySequence (this w) = done ->
    map (getKeyCombo platform) events = map Some todo ->
    Forall (fun c => c <> "") todo ->
    todo <> [] ->
    JsMap.get (join " " (done ++ todo)%list) m = Some a ->
    (forall n, (List.length done < n < List.length (done ++ todo)%list)%nat ->
       JsMap.get (join " " (firstn n (done ++ todo)%list)) m = None) ->
    snd (feed platform target events w)
      = (repeat (mkOutcome true []) (List.length todo - 1)
         ++ [mkOutcome true [(a, target)]])%list /\
    keySequence (this (fst (feed platform target events w))) = [] /\
    timers (env (fst (feed platform target events w))) = [].
Proof.
  induction todo as [|c todo IH]; intros events done w Hc Hen Hm Hks Hev Hne Hnil
    Hget Hpre; [easy|].
  destruct events as [|event events]; [discriminate|].
  injection Hev as Hcombo Hev. inversion Hne as [|? ? Hc0 Hne']; subst.
  cbn [feed]. unfold processKeyEvent. rewrite Hen, Hcombo. cbn [negb].
  apply String.eqb_neq in Hc0. rewrite Hc0.
  pose proof (processKeyCombo_cases c target w Hc) as H. cbv zeta in H.
  destruct H as (Hm' & Hen' & _ & H).
  pose proof (processKeyCombo_coherent c target w Hc) as Hc'.
  destruct (processKeyCombo c target w) as [w1 out] eqn:E.
  cbn [fst snd] in *.
  assert (Ef : findMatchingAction
                 (set_keySequence (keySequence (this w) ++ [c]) (this w))
                 (join " " (keySequence (this w) ++ [c])%list)
               = JsMap.get (join " " (keySequence (this w) ++ [c])%list) m).
  { unfold findMatchingAction. simpl. now rewrite Hm. }
  rewrite Ef in H.
  destruct todo as [|c' todo'].
  - (* the last combination completes the sequence *)
    destruct events; [|discriminate]. cbn [feed].
    rewrite Hget in H. destruct H as (-> & Hk & _ & Ht).
    now repeat split.
  - (* a proper prefix: nothing bound, something longer is *)
    assert (Hnone : JsMap.get (join " " (keySequence (this w) ++ [c])%list) m
                    = None).
    { specialize (Hpre (S (List.length (keySequence (this w))))).
      replace (firstn _ _) with (keySequence (this w) ++ [c])%list in Hpre.
      - apply Hpre. rewrite length_app. simpl. lia.
      - change (c :: c' :: todo') with ([c] ++ c' :: todo')%list.
        rewrite app_assoc.
        replace (S (List.length (keySequence (this w))))
          with (List.length (keySequence (this w) ++ [c])%list + 0)%nat
          by (rewrite length_app; simpl; lia).
        rewrite firstn_app_2. simpl. now rewrite app_nil_r. }
    rewrite Hnone in H.
    assert (Hpart : hasPartialMatch
                      (set_keySequence (keySequence (this w) ++ [c]) (this w))
                      (join " " (keySequence (this w) ++ [c])%list) = true).
    { unfold hasPartialMatch. simpl. rewrite Hm. apply existsb_exists.
      exists (join " " (keySequence (this w) ++ c :: c' :: todo')%list).
      split; [now apply JsMap_get_key with a|].
      change (c :: c' :: todo') with ([c] ++ c' :: todo')%list.
      rewrite app_assoc, join_app;
        [|apply app_not_nil|discriminate].
      rewrite <- append_assoc. apply startsWith_app. }
    rewrite Hpart in H. destruct H as (-> & Hk & _ & _ & _).
    specialize (IH events (keySequence (this w) ++ [c])%list w1 Hc').
    rewrite <- app_assoc in IH. cbn [app] in IH.
    destruct IH as (Hout & Hks' & Hts'); try assumption;
      try congruence; try discriminate.
    + intros n Hn. apply Hpre. rewrite length_app in Hn. simpl in Hn. lia.
    + destruct (feed platform target events w1) as [w2 outs].
      cbn [fst snd] in *. rewrite Hout. cbn [List.length Nat.sub].
      rewrite Nat.sub_0_r. now repeat split.
Qed.

(** X12.  A bound key sequence is recognized press by press.  On an
    enabled recognizer with nothing pending, when the presses yield the
    combinations of a key of the table and no shorter run of them is
    itself a key, every press but the last returns [true] and emits
    nothing, the last one returns [true] and emits the action of the key,
    and afterwards nothing is pending and no timer is scheduled. *)
Theorem feed_bound_sequence
    (platform : string) (target : nat) (m : table) (a : action)
    (events : list KeyboardEvent) (combos : list string) (w : world) :
  reachable w ->
  enabled (this w) = true ->
  mappings (this w) = StoreMap m ->
  keySequence (this w) = [] ->
  map (getKeyCombo platform) events = map Some combos ->
  Forall (fun c => c <> "") combos ->
  combos <> [] ->
  JsMap.get (join " " combos) m = Some a ->
  (forall n, (0 < n < List.length combos)%nat ->
     JsMap.get (join " " (firstn n combos)) m = None) ->
  snd (feed platform target events w)
    = (repeat (mkOutcome true []) (List.length combos - 1)
       ++ [mkOutcome true [(a, target)]])%list /\
  keySequence (this (fst (feed platform target events w))) = [] /\
  ~ scheduled (fst (feed platform target events w)).
Proof.
  intros Hr Hen Hm Hks Hev Hne Hnil Hget Hpre.
  destruct (feed_sequence platform target m a combos events [] w
              (reachable_coherent w Hr) Hen Hm Hks Hev Hne Hnil Hget)
    as (Ho & Hk & Ht).
  - intros n Hn. apply Hpre. simpl in Hn. exact Hn.
  - unfold scheduled. rewrite Ht. now repeat split.
Qed.

Lemma feed_bound_sequence_witness :
  snd (feed "Win32" 0 [press_ctrl_l; press_a] alpha_world)
  = [mkOutcome true []; mkOutcome true [(Insert "\alpha", 0)]].
Proof.
  assert (Hr : reachable alpha_world).
  { unfold alpha_world. apply reach_step, reach_init. }
  assert (Hne : Forall (fun c : string => c <> "") ["ctrl+l"; "a"]).
  { repeat constructor; discriminate. }
  assert (Hnil : ["ctrl+l"; "a"] <> []) by discriminate.
  apply (feed_bound_sequence "Win32" 0 alpha_table (Insert "\alpha")
           [press_ctrl_l; press_a] ["ctrl+l"; "a"] alpha_world
           Hr eq_refl eq_refl eq_refl eq_refl Hne Hnil eq_refl).
  intros n Hn. simpl in Hn. assert (n = 1) by lia. subst n. reflexivity.
Defined.

(** *** The time-out *)

(** X13.  While a key sequence is pending exactly one timer can fire.
    When it fires the pending sequence is cleared, no timer is left and
    the table and the enabled flag are as before; a handle other than
    the pending one belongs to no timer, and its firing changes
    nothing. *)
Theorem timeout_clears_pending_sequence (w : world) :
  reachable w ->
  pending w ->
  exists id d,
    timers (env w) = [(id, d)] /\
    keySequence (this (timer_fires id w)) = [] /\
    sequenceTimeout (this (timer_fires id w)) = None /\
    timers (env (timer_fires id w)) = [] /\
    mappings (this (timer_fires id w)) = mappings (this w) /\
    enabled (this (timer_fires id w)) = enabled (this w) /\
    forall id', id' <> id -> timer_fires id' w = w.
Proof.
  intros Hr Hp. pose proof (reachable_coherent w Hr) as Hc.
  destruct w as [h [ts n]].
  destruct (coherent_cases _ Hc)
    as [(Hs & Ht & Hk) | (id & d & Hs & Ht & Hk & Hle)];
    cbn [this env timers] in *; [now destruct Hp|].
  subst ts. exists (S id), d.
  assert (Hf : timer_fires (S id)
                 {| this := h;
                    env := {| timers := [(S id, d)]; last_handle := n |} |}
               = mkWorld (set_sequenceTimeout None (set_keySequence [] h))
                         (mkHost [] n)).
  { unfold timer_fires. cbn [env timers this existsb fst].
    rewrite Nat.eqb_refl. cbn [orb]. rewrite clearTimeout_single.
    unfold clearSequence. cbn [this env set_keySequence sequenceTimeout].
    rewrite Hs. reflexivity. }
  rewrite Hf. cbn [this env timers].
  split; [reflexivity|]. split; [reflexivity|]. split; [reflexivity|].
  split; [reflexivity|]. split; [reflexivity|]. split; [reflexivity|].
  intros id' Hne. unfold timer_fires. cbn [env timers this existsb fst].
  apply Nat.eqb_neq in Hne. rewrite Nat.eqb_sym in Hne. now rewrite Hne.
Qed.

Lemma timeout_clears_pending_sequence_witness :
  exists id d,
    timers (env alpha_pending) = [(id, d)] /\
    keySequence (this (timer_fires id alpha_pending)) = [].
Proof.
  assert (Hr : reachable alpha_pending).
  { unfold alpha_pending, alpha_world. do 2 apply reach_step.
    apply reach_init. }
  assert (Hp : pending alpha_pending) by discriminate.
  destruct (timeout_clears_pending_sequence alpha_pending Hr Hp)
    as (id & d & Ht & Hk & _).
  exists id, d. split; [exact Ht|exact Hk].
Defined.

(** *** Modifier keys on their own *)

Lemma renamed_modifier_name (k : string) :
  In k modifier_names -> renamed k = k.
Proof.
  intros H. repeat (destruct H as [<-|H]; [reflexivity|]). destruct H.
Qed.

(** X14.  A press of Control, Alt, Shift or Meta alone is passed over:
    whatever the modifiers held, the platform and the state of the
    recognizer, [processKeyEvent] returns [false], emits nothing and
    leaves the pending sequence, the timer and every other field as
    they were.  (The code of such a press is not one of the letter,
    digit or space codes, nor the name of a member of
    [Object.prototype], for which [codeToKey[event.code]] is not
    [undefined].) *)
Theorem modifier_press_is_ignored
    (platform : string) (event : KeyboardEvent) (target : nat) (w : world) :
  In (toLowerCase (key event)) modifier_names ->
  lookup (code event) codeToKey = None ->
  JsObject.inherited (code event) = false ->
  getKeyCombo platform event = None /\
  processKeyEvent platform event target w = (w, mkOutcome false []).
Proof.
  intros Hk Hcode _.
  assert (Hcombo : getKeyCombo platform event = None).
  { unfold getKeyCombo.
    replace (main_key platform event) with (toLowerCase (key event)).
    - unfold modifier_names in Hk.
      replace (existsb _ _) with true; [reflexivity|].
      symmetry. apply existsb_exists. exists (toLowerCase (key event)).
      split; [exact Hk|apply String.eqb_refl].
    - unfold main_key. rewrite Hcode.
      destruct (_ && _ && _ && _);
        fold (renamed (toLowerCase (key event)));
        now rewrite renamed_modifier_name. }
  split; [exact Hcombo|].
  unfold processKeyEvent. rewrite Hcombo. now destruct (negb _).
Qed.

Lemma modifier_press_is_ignored_witness :
  processKeyEvent "MacIntel"
    (mkEvent "Control" "ControlLeft" true false false false) 0 alpha_pending
  = (alpha_pending, mkOutcome false []).
Proof.
  apply (modifier_press_is_ignored "MacIntel"
           (mkEvent "Control" "ControlLeft" true false false false)
           0 alpha_pending).
  - simpl. tauto.
  - reflexivity.
  - reflexivity.
Defined.

(** *** The Option key on the Mac *)

Lemma codeToKey_values_plain :
  forallb
    (fun v => String.eqb (renamed v) v
              && negb (existsb (String.eqb v) modifier_names))
    (map snd codeToKey) = true.
Proof. vm_compute. reflexivity. Qed.

(** X15.  On the Mac, with Option held and neither Control nor Command,
    the key is read from the physical key: for each of the letter, digit
    and space codes the combination is [alt+], then [shift+] if Shift is
    held, then the letter, digit or [space] of that code, whatever
    character [event.key] carries. *)
Theorem option_key_reads_physical_key
    (platform : string) (event : KeyboardEvent) (k : string) :
  includes (toUpperCase platform) "MAC" = true ->
  altKey event = true ->
  ctrlKey event = false ->
  metaKey event = false ->
  lookup (code event) codeToKey = Some k ->
  getKeyCombo platform event
  = Some ("alt+" ++ (if shiftKey event then "shift+" else "") ++ k).
Proof.
  intros Hmac Halt Hctrl Hmeta Hcode.
  pose proof codeToKey_values_plain as Hv. rewrite forallb_forall in Hv.
  specialize (Hv k (lookup_In _ _ _ Hcode)).
  apply andb_prop in Hv as [Hren Hmod].
  apply String.eqb_eq in Hren. apply negb_true_iff in Hmod.
  unfold getKeyCombo.
  replace (main_key platform event) with k.
  - unfold modifier_names in Hmod. rewrite Hmod.
    unfold modifier_parts. rewrite Halt, Hctrl, Hmeta.
    now destruct (shiftKey event).
  - unfold main_key. rewrite Hmac, Halt, Hctrl, Hmeta, Hcode. cbn [andb negb].
    fold (renamed k). now rewrite Hren.
Qed.

Lemma option_key_reads_physical_key_witness :
  getKeyCombo "MacIntel"
    (mkEvent (utf8 [194; 169]) "KeyG" false true false false)
  = Some "alt+g".
Proof.
  apply (option_key_reads_physical_key "MacIntel"
           (mkEvent (utf8 [194; 169]) "KeyG" false true false false) "g");
    reflexivity.
Defined.

(** *** The shape of a key combination *)

Lemma renamed_no_upper (k : string) :
  no_upper k = true -> no_upper (renamed k) = true.
Proof.
  intros H. unfold renamed. destruct (lookup k keyNormalizations) eqn:E;
    [|exact H].
  apply lookup_In in E. simpl in E.
  repeat (destruct E as [<-|E]; [reflexivity|]). destruct E.
Qed.

Lemma codeToKey_values_lower :
  forallb no_upper (map snd codeToKey) = true.
Proof. vm_compute. reflexivity. Qed.

Lemma main_key_no_upper platform event :
  no_upper (main_key platform event) = true.
Proof.
  unfold main_key.
  match goal with
  | |- context [lookup ?k1 keyNormalizations] => fold (renamed k1)
  end.
  apply renamed_no_upper.
  destruct (_ && _ && _ && _); [|apply toLowerCase_no_upper].
  destruct (lookup (code event) codeToKey) eqn:E;
    [|apply toLowerCase_no_upper].
  apply lookup_In in E. pose proof codeToKey_values_lower as H.
  rewrite forallb_forall in H. now apply H.
Qed.

Lemma renamed_not_empty (k : string) : k <> "" -> renamed k <> "".
Proof.
  intros H. unfold renamed. destruct (lookup k keyNormalizations) eqn:E;
    [|exact H].
  apply lookup_In in E. simpl in E.
  repeat (destruct E as [<-|E]; [discriminate|]). destruct E.
Qed.

Lemma toLowerCase_not_empty (k : string) : k <> "" -> toLowerCase k <> "".
Proof. destruct k; [easy|discriminate]. Qed.

(** X16.  A key combination holds no upper-case letter, so that it can
    equal a key that the parser wrote; and the press of a key whose name
    is not empty never yields the empty combination, the one that
    [processKeyEvent] would drop.  The lower-cased key and the code of
    the event are taken not to be names of members of
    [Object.prototype], for which the look-ups in [keyNormalizations]
    and [codeToKey] give a function, written with an upper-case
    letter. *)
Theorem getKeyCombo_shape
    (platform : string) (event : KeyboardEvent) (combo : string) :
  JsObject.inherited (toLowerCase (key event)) = false ->
  JsObject.inherited (code event) = false ->
  getKeyCombo platform event = Some combo ->
  no_upper combo = true /\ (key event <> "" -> combo <> "").
Proof.
  intros _ _.
  unfold getKeyCombo. destruct (existsb _ _); [discriminate|].
  intros [= <-]. pose proof (main_key_no_upper platform event) as Hl.
  split.
  - destruct event as [ky cd c a sh m]. unfold modifier_parts.
    cbn [ctrlKey altKey shiftKey metaKey].
    destruct c, a, sh, m; cbn [app join]; rewrite ?no_upper_app, ?Hl;
      reflexivity.
  - intros Hne.
    assert (Hk : main_key platform event <> "").
    { unfold main_key.
      match goal with
      | |- context [lookup ?k1 keyNormalizations] => fold (renamed k1)
      end.
      apply renamed_not_empty.
      destruct (_ && _ && _ && _); [|now apply toLowerCase_not_empty].
      destruct (lookup (code event) codeToKey) eqn:E;
        [|now apply toLowerCase_not_empty].
      apply lookup_In in E. simpl in E.
      repeat (destruct E as [<-|E]; [discriminate|]). destruct E. }
    destruct event as [ky cd c a sh m]. unfold modifier_parts.
    cbn [ctrlKey altKey shiftKey metaKey].
    destruct c, a, sh, m; cbn [app join append]; try discriminate.
    exact Hk.
Qed.

Lemma getKeyCombo_shape_witness :
  getKeyCombo "Win32" (mkEvent "B" "KeyB" true false true false)
    = Some "ctrl+shift+b" /\
  no_upper "ctrl+shift+b" = true.
Proof.
  split; [reflexivity|].
  apply (getKeyCombo_shape "Win32"
           (mkEvent "B" "KeyB" true false true false) "ctrl+shift+b"
           eq_refl eq_refl eq_refl).
Defined.

End RecognizerExtras.

(* ================================================================== *)
(** ** From a bind line to the action of a key press *)
(* ================================================================== *)

Section EndToEnd.

Import LyXConfigParser KeySequenceHandler Recognizer Resolution Keys Chars
       Feeding.

Lemma rev_string_app (acc a b : string) :
  rev_string acc (a ++ b) = rev_string (rev_string acc a) b.
Proof.
  revert acc. induction a as [|c a IH]; intros acc; [reflexivity|].
  cbn [append rev_string]. apply IH.
Qed.

Lemma rev_string_twice (acc acc' s : string) :
  rev_string acc' (rev_string acc s) = rev_string (s ++ acc') acc.
Proof.
  revert acc. induction s as [|c s IH]; intros acc; [reflexivity|].
  cbn [rev_string append]. now rewrite IH.
Qed.

(** [trim] leaves alone a text that neither starts nor ends in white
    space *)
Lemma trim_tight (c l : ascii) (body : string) :
  is_space c = false -> is_space l = false ->
  trim (String c (body ++ String l "")) = String c (body ++ String l "").
Proof.
  intros Hc Hl. unfold trim. cbn [drop_spaces]. rewrite Hc.
  cbn [rev_string]. rewrite rev_string_app. cbn [rev_string drop_spaces].
  rewrite Hl. cbn [rev_string]. rewrite rev_string_twice. reflexivity.
Qed.

Lemma split_lines_go_one_line (cur s : string) :
  newline_free s = true ->
  split_lines_go cur s = [rev_string "" (rev_string cur s)].
Proof.
  revert cur. induction s as [|c s IH]; intros cur H; [reflexivity|].
  unfold newline_free in H. cbn [string_forall] in H.
  apply andb_prop in H as [Hc Hs]. apply negb_true_iff in Hc.
  cbn [split_lines_go rev_string]. rewrite Hc. now apply IH.
Qed.

Lemma split_lines_one_line (s : string) :
  newline_free s = true -> split_lines s = [s].
Proof.
  intros H. unfold split_lines. rewrite split_lines_go_one_line by exact H.
  rewrite rev_string_twice. cbn [rev_string]. now rewrite append_nil_r.
Qed.

Lemma string_forall_app (P : ascii -> bool) (a b : string) :
  string_forall P (a ++ b) = string_forall P a && string_forall P b.
Proof.
  induction a as [|c a IH]; [reflexivity|].
  cbn [append string_forall]. now rewrite IH, andb_assoc.
Qed.

(** a configuration of one bind line has one binding *)
Lemma collect_bindings_one_line (k c : string) :
  k <> "" -> quote_free k = true -> newline_free k = true ->
  c <> "" -> quote_free c = true -> newline_free c = true ->
  collect_bindings (bindLine k c) = [mkBinding k c].
Proof.
  intros Nk Qk Lk Nc Qc Lc. unfold collect_bindings.
  rewrite split_lines_one_line.
  2:{ unfold bindLine, newline_free. rewrite !string_forall_app.
      unfold newline_free in Lk, Lc. now rewrite Lk, Lc. }
  cbn [fold_left]. unfold collect_line.
  assert (Ht : trim (bindLine k c) = bindLine k c).
  { unfold bindLine.
    replace ("\bind " ++ dq ++ k ++ dq ++ " " ++ dq ++ c ++ dq)
      with (String "\"%char
              (("bind " ++ dq ++ k ++ dq ++ " " ++ dq ++ c) ++ dq)).
    - now apply trim_tight.
    - rewrite !append_assoc. reflexivity. }
  assert (Hp : parseBindLine (bindLine k c) = Some (mkBinding k c)).
  { apply (parseBindLine_statement " " " " k c ""); try assumption;
      reflexivity || discriminate. }
  assert (E1 : startsWith (bindLine k c) "#" = false) by reflexivity.
  assert (E2 : startsWith (bindLine k c) "Format" = false) by reflexivity.
  assert (E3 : String.eqb (bindLine k c) "" = false) by reflexivity.
  assert (E4 : startsWith (bindLine k c) "\bind_file" = false)
    by reflexivity.
  assert (E5 : startsWith (bindLine k c) "\bind " = true) by reflexivity.
  rewrite Ht, E1, E2, E3, E4, E5, Hp. reflexivity.
Qed.

Lemma normalizeKeySequence_letter navigator o (l : ascii) :
  is_lower l = true ->
  normalizeKeySequence navigator (String l "") o = String l "".
Proof.
  intros H. destruct (normalizeKeySequence_settings navigator o)
    as (st & Hst & ->).
  destruct l as [[] [] [] [] [] [] [] []]; try discriminate H;
    destruct Hst as [<-|[<-|[<-|[]]]]; reflexivity.
Qed.

Lemma renamed_letter (l : ascii) :
  is_lower l = true -> renamed (String l "") = String l "".
Proof.
  destruct l as [[] [] [] [] [] [] [] []]; intros H;
    try discriminate H; reflexivity.
Qed.

Lemma letter_not_modifier (l : ascii) :
  existsb (String.eqb (String l "")) ["control"; "alt"; "shift"; "meta"]
  = false.
Proof.
  destruct l as [[] [] [] [] [] [] [] []]; reflexivity.
Qed.

Lemma letter_plain (l : ascii) :
  is_lower l = true ->
  quote_free (String l "") = true /\ newline_free (String l "") = true.
Proof.
  destruct l as [[] [] [] [] [] [] [] []]; intros H;
    try discriminate H; split; reflexivity.
Qed.

Lemma chord_spec_plain (ctrl alt shift : bool) (l : ascii) :
  is_lower l = true ->
  chord_spec ctrl alt shift l <> "" /\
  quote_free (chord_spec ctrl alt shift l) = true /\
  newline_free (chord_spec ctrl alt shift l) = true.
Proof.
  intros H. destruct (letter_plain l H) as [Hq Hn].
  unfold chord_spec, quote_free, newline_free in *.
  rewrite !string_forall_app, Hq, Hn.
  destruct ctrl, alt, shift; repeat split; discriminate || reflexivity.
Qed.

Lemma chord_spec_normalized navigator o (ctrl alt shift : bool) (l : ascii) :
  is_lower l = true ->
  normalizeKeySequence navigator (chord_spec ctrl alt shift l) o
  = chord_key ctrl alt shift l.
Proof.
  intros H. unfold chord_spec, chord_key.
  pose proof (fun k => proj1 (normalizeKeySequence_prefix navigator o k))
    as HC.
  pose proof (fun k => proj1 (proj2
                (normalizeKeySequence_prefix navigator o k))) as HS.
  pose proof (fun k => proj1 (proj2 (proj2
                (normalizeKeySequence_prefix navigator o k)))) as HA.
  destruct ctrl, alt, shift; cbv beta iota;
    repeat match goal with
           | |- context [append EmptyString ?x] =>
               change (append EmptyString x) with x
           end;
    rewrite ?HC, ?HA, ?HS;
    now rewrite normalizeKeySequence_letter.
Qed.

Lemma chord_press_combo platform (ctrl alt shift : bool) (l : ascii)
    (k cd : string) :
  is_lower l = true ->
  toLowerCase k = String l "" ->
  (lookup cd codeToKey = None \/
   lookup cd codeToKey = Some (String l "")) ->
  getKeyCombo platform (chord_press ctrl alt shift k cd)
  = Some (chord_key ctrl alt shift l).
Proof.
  intros Hl Hk Hcode. unfold getKeyCombo.
  replace (main_key platform (chord_press ctrl alt shift k cd))
    with (String l "").
  - rewrite letter_not_modifier. unfold chord_press, chord_key, modifier_parts.
    cbn [ctrlKey altKey shiftKey metaKey].
    destruct ctrl, alt, shift; reflexivity.
  - unfold main_key, chord_press. cbn [key code ctrlKey altKey metaKey].
    rewrite Hk.
    destruct (_ && _ && _ && _); [destruct Hcode as [-> | ->]|];
      fold (renamed (String l "")); now rewrite renamed_letter.
Qed.

(** X17.  A chord bound in the configuration fires when it is pressed.
    Without the conflict pass (off the Mac, or with [mapMetaToCtrl]
    true), a configuration of one bind line whose key specification is
    a lower-case letter behind any of [C-], [A-], [S-], in that order,
    and whose command has an action, parses to the single entry of that
    action; and once that table is installed the press of the letter
    with the same modifiers, on a recognizer that is enabled and has
    nothing pending, returns [true], emits the action for the target and
    leaves nothing pending.  The code of the press is that of the letter,
    or one that [codeToKey] does not list and that names no member of
    [Object.prototype]. *)
Theorem bound_chord_fires
    (platform : string) (o : options) (ctrl alt shift : bool)
    (letter : ascii) (k cd cmd : string) (a : action) (target : nat)
    (w : world) :
  reachable w ->
  enabled (this w) = true ->
  keySequence (this w) = [] ->
  isMac (Some platform) && not_mapMetaToCtrl o = false ->
  is_lower letter = true ->
  convertCommand cmd = Some a ->
  quote_free cmd = true ->
  newline_free cmd = true ->
  toLowerCase k = String letter "" ->
  (lookup cd codeToKey = None /\ JsObject.inherited cd = false \/
   lookup cd codeToKey = Some (String letter "")) ->
  let tbl :=
    parse (Some platform) (bindLine (chord_spec ctrl alt shift letter) cmd) o in
  let event := chord_press ctrl alt shift k cd in
  let w1 := setMappings (JMap tbl) w in
  tbl = [(chord_key ctrl alt shift letter, a)] /\
  getKeyCombo platform event = Some (chord_key ctrl alt shift letter) /\
  snd (processKeyEvent platform event target w1)
    = mkOutcome true [(a, target)] /\
  keySequence (this (fst (processKeyEvent platform event target w1))) = [].
Proof.
  intros Hr Hen Hks Hmode Hl Ha Hq Hn Hk Hcode' tbl event w1.
  assert (Hcode : lookup cd codeToKey = None \/
                  lookup cd codeToKey = Some (String letter ""))
    by (destruct Hcode' as [[H _]|H]; [left|right]; exact H).
  clear Hcode'.
  assert (Hcmd : cmd <> "") by (intros ->; discriminate Ha).
  destruct (chord_spec_plain ctrl alt shift letter Hl) as (Ns & Qs & Ls).
  assert (Htbl : tbl = [(chord_key ctrl alt shift letter, a)]).
  { unfold tbl, parse.
    rewrite collect_bindings_one_line by assumption.
    unfold resolveConflictsAndBuild, first_pass. rewrite Hmode.
    cbn [fold_left]. unfold build_step.
    cbn [JsSet.has existsb originalKey command]. rewrite Ha.
    now rewrite chord_spec_normalized. }
  assert (Hcombo : getKeyCombo platform event
                   = Some (chord_key ctrl alt shift letter)).
  { now apply chord_press_combo. }
  assert (Hne : chord_key ctrl alt shift letter <> "").
  { unfold chord_key. destruct ctrl, alt, shift; discriminate. }
  split; [exact Htbl|]. split; [exact Hcombo|].
  clearbody tbl. subst tbl.
  assert (Hc1 : coherent w1) by (apply (reachable_coherent w) in Hr; exact Hr).
  pose proof (processKeyCombo_cases (chord_key ctrl alt shift letter)
                target w1 Hc1) as H.
  cbv zeta in H. destruct H as (_ & _ & _ & H).
  unfold processKeyEvent. cbn [w1 setMappings this set_mappings enabled].
  rewrite Hen, Hcombo. cbn [negb].
  apply String.eqb_neq in Hne. rewrite Hne.
  fold w1. unfold findMatchingAction in H.
  cbn [w1 setMappings this set_mappings set_keySequence mappings keySequence]
    in H.
  rewrite Hks in H. cbn [app join JsMap.get] in H.
  rewrite String.eqb_refl in H. destruct H as (Ho & Hk' & _).
  split; [exact Ho|exact Hk'].
Qed.

Lemma bound_chord_fires_witness :
  parse (Some "Win32") (bindLine "A-g" "math-insert \alpha") no_options
    = [("alt+g", Insert "\alpha")] /\
  snd (processKeyEvent "Win32" (mkEvent "g" "KeyG" false true false false) 0
         (setMappings
            (JMap (parse (Some "Win32")
                     (bindLine "A-g" "math-insert \alpha") no_options))
            initial_world))
    = mkOutcome true [(Insert "\alpha", 0)].
Proof.
  pose proof (bound_chord_fires "Win32" no_options false true false
                "g"%char "g" "KeyG" "math-insert \alpha" (Insert "\alpha") 0
                initial_world reach_init eq_refl eq_refl eq_refl eq_refl
                eq_refl eq_refl eq_refl eq_refl (or_intror eq_refl)) as H.
  cbv zeta in H. destruct H as (H1 & _ & H3 & _).
  split; [exact H1|exact H3].
Defined.

End EndToEnd.

(* ================================================================== *)
(** ** Properties of MappingManager *)
(* ================================================================== *)

Section MappingManagerFacts.

Import LyXConfigParser KeySequenceHandler MappingManager.

Lemma existsb_filter_nonempty {A : Type} (f : A -> bool) (l : list A) :
  existsb f l = match filter f l with _ :: _ => true | [] => false end.
Proof.
  induction l as [|x l IH]; [reflexivity|].
  simpl. destruct (f x); [reflexivity|exact IH].
Qed.

Lemma existsb_map {A B : Type} (f : B -> bool) (g : A -> B) (l : list A) :
  existsb f (map g l) = existsb (fun x => f (g x)) l.
Proof.
  induction l as [|x l IH]; [reflexivity|]. simpl. now rewrite IH.
Qed.

(** X18.  The table look-up of the mapping manager and that of the key
    sequence handler decide alike on every table and every sequence:
    [hasMatch] says exact, with the action, exactly when
    [findMatchingAction] finds that action; it says partial, with the
    entries whose keys start with the sequence and a space, exactly when
    [findMatchingAction] finds nothing and [hasPartialMatch] holds; and it
    returns [null] exactly when both find nothing. *)
Theorem hasMatch_agrees_with_handler
    (sequence : string) (m : table) (h : handler) :
  mappings h = StoreMap m ->
  match hasMatch sequence m with
  | ExactMatch found =>
      found = findMatchingAction h sequence /\ found <> None
  | PartialMatch matches =>
      findMatchingAction h sequence = None /\
      hasPartialMatch h sequence = true /\
      matches = findPartialMatches sequence m /\ matches <> []
  | NoMatch =>
      findMatchingAction h sequence = None /\
      hasPartialMatch h sequence = false
  end.
Proof.
  intros Hm. unfold hasMatch, findMatchingAction, hasPartialMatch.
  rewrite Hm. unfold JsMap.has.
  destruct (JsMap.get sequence m) as [a|] eqn:E.
  - split; [reflexivity|discriminate].
  - unfold JsMap.keys. rewrite existsb_map.
    rewrite existsb_filter_nonempty.
    change (filter _ m) with (findPartialMatches sequence m).
    destruct (findPartialMatches sequence m);
      repeat split; reflexivity || discriminate.
Qed.

Lemma hasMatch_agrees_with_handler_witness :
  hasMatch "ctrl+l" Recognizer.alpha_table
  = PartialMatch [("ctrl+l a", Insert "\alpha")] /\
  hasPartialMatch (this Recognizer.alpha_world) "ctrl+l" = true.
Proof.
  split; [reflexivity|].
  pose proof (hasMatch_agrees_with_handler "ctrl+l" Recognizer.alpha_table
                (this Recognizer.alpha_world) eq_refl) as H.
  exact (proj1 (proj2 H)).
Defined.

Lemma delete_get_other (k k' : string) (m : table) :
  k' <> k -> JsMap.get k' (fst (delete k m)) = JsMap.get k' m.
Proof.
  intros Hne. induction m as [|[k0 v0] rest IH]; [reflexivity|].
  cbn [delete]. destruct (String.eqb k0 k) eqn:E.
  - apply String.eqb_eq in E. subst k0. cbn [fst JsMap.get].
    destruct (String.eqb k k') eqn:E'; [|reflexivity].
    apply String.eqb_eq in E'. now subst.
  - destruct (delete k rest) as [rest' removed]. cbn [fst JsMap.get] in *.
    now rewrite IH.
Qed.

Lemma get_not_key (k : string) (m : table) :
  ~ In k (JsMap.keys m) -> JsMap.get k m = None.
Proof.
  unfold JsMap.keys. induction m as [|[k0 v0] rest IH]; [reflexivity|].
  simpl. intros H. destruct (String.eqb k0 k) eqn:E.
  - apply String.eqb_eq in E. tauto.
  - apply IH. tauto.
Qed.

Lemma delete_get_same (k : string) (m : table) :
  NoDup (JsMap.keys m) -> JsMap.get k (fst (delete k m)) = None.
Proof.
  unfold JsMap.keys. induction m as [|[k0 v0] rest IH]; [reflexivity|].
  simpl. intros H. inversion H as [|? ? Hnotin Hrest]; subst.
  destruct (String.eqb k0 k) eqn:E.
  - apply String.eqb_eq in E. subst k0. cbn [fst]. now apply get_not_key.
  - destruct (delete k rest) as [rest' removed]. cbn [fst JsMap.get] in *.
    rewrite E. now apply IH.
Qed.

Lemma delete_removed (k : string) (m : table) :
  snd (delete k m) = JsMap.has k m.
Proof.
  unfold JsMap.has. induction m as [|[k0 v0] rest IH]; [reflexivity|].
  cbn [delete JsMap.get]. destruct (String.eqb k0 k); [reflexivity|].
  destruct (delete k rest) as [rest' removed]. exact IH.
Qed.

Lemma delete_set_fresh (k : string) (a : action) (m : table) :
  JsMap.has k m = false -> delete k (JsMap.set k a m) = (m, true).
Proof.
  unfold JsMap.has. induction m as [|[k0 v0] rest IH]; cbn [JsMap.set JsMap.get delete].
  - intros _. now rewrite String.eqb_refl.
  - destruct (String.eqb k0 k) eqn:E; [discriminate|].
    intros H. cbn [delete]. rewrite E. now rewrite IH.
Qed.

(** X19.  Adding, looking up and removing a mapping fit together.  After
    [addMapping] the key is found with the new action and every other key
    is found as before.  [removeMapping] returns whether the key was
    there, leaves every other key as it was and, the keys of a map being
    distinct, leaves the key itself unbound.  Removing a key just added
    to a table that did not have it gives the table back. *)
Theorem addMapping_removeMapping (k : string) (a : action) (m : table) :
  NoDup (JsMap.keys m) ->
  findExactMatch k (addMapping k a m) = Some a /\
  (forall k', k' <> k ->
     findExactMatch k' (addMapping k a m) = findExactMatch k' m /\
     findExactMatch k' (fst (removeMapping k m)) = findExactMatch k' m) /\
  snd (removeMapping k m) = JsMap.has k m /\
  findExactMatch k (fst (removeMapping k m)) = None /\
  (JsMap.has k m = false -> removeMapping k (addMapping k a m) = (m, true)).
Proof.
  intros Hnd. unfold findExactMatch, addMapping, removeMapping.
  split; [now rewrite JsMap_get_set_same|].
  split.
  { intros k' Hne.
    rewrite JsMap_get_set_other by exact Hne.
    now rewrite delete_get_other by exact Hne. }
  split; [apply delete_removed|].
  split; [now rewrite delete_get_same|].
  apply delete_set_fresh.
Qed.

Lemma addMapping_removeMapping_witness :
  NoDup (JsMap.keys Recognizer.alpha_table) /\
  removeMapping "alt+g" (addMapping "alt+g" (Insert "\gamma") Recognizer.alpha_table)
  = (Recognizer.alpha_table, true).
Proof.
  assert (Hnd : NoDup (JsMap.keys Recognizer.alpha_table)).
  { repeat constructor. intros []. }
  split; [exact Hnd|].
  apply (addMapping_removeMapping "alt+g" (Insert "\gamma") Recognizer.alpha_table Hnd).
  reflexivity.
Defined.

(** X20.  [validateAction] does not accept all that the parser builds.
    Of the actions of the shapes that [convertCommand] builds it passes
    the insertions, the wraps and the selections only: a navigation,
    clipboard or edit action lacks the property that [validateAction]
    asks for, and the type [delete] is not among the valid types. *)
Theorem validateAction_on_parser_actions (a : action) :
  validateAction (action_object a)
  = match a with
    | Insert _ | Wrap _ _ | Selection _ => Valid
    | Navigation _ =>
        Invalid "Navigation action must have navigation property"
    | Delete _ => Invalid "Invalid action type: delete"
    | Clipboard _ =>
        Invalid "Clipboard action must have clipboard property"
    | Edit _ => Invalid "Edit action must have edit property"
    end.
Proof.
  destruct a; reflexivity.
Qed.

End MappingManagerFacts.

(* ================================================================== *)
(** ** Properties of the action executor *)
(* ================================================================== *)

Section ActionExecutorFacts.

Import LyXConfigParser ActionExecutor Chars.

Lemma take_app (a b : string) : take (String.length a) (a ++ b) = a.
Proof. induction a as [|c a IH]; simpl; [now destruct b|now rewrite IH]. Qed.

Lemma substring_from_app (a b : string) :
  substring_from (String.length a) (a ++ b) = b.
Proof. induction a as [|c a IH]; simpl; [now destruct b|exact IH]. Qed.

Lemma substring_from_0 (s : string) : substring_from 0 s = s.
Proof. now destruct s. Qed.

Lemma slice_prefix (a b : string) : slice 0 (String.length a) (a ++ b) = a.
Proof.
  unfold slice. rewrite Nat.sub_0_r, substring_from_0. apply take_app.
Qed.

Lemma slice_middle (a b c : string) :
  slice (String.length a) (String.length a + String.length b) (a ++ b ++ c)
  = b.
Proof.
  unfold slice. rewrite substring_from_app.
  replace (String.length a + String.length b - String.length a)%nat
    with (String.length b) by lia.
  apply take_app.
Qed.

Lemma substring_from_app2 (a b c : string) :
  substring_from (String.length a + String.length b) (a ++ b ++ c) = c.
Proof.
  rewrite <- append_length, <- append_assoc. apply substring_from_app.
Qed.

Lemma get_app (a : string) (c : ascii) (b : string) :
  String.get (String.length a) (a ++ String c b) = Some c.
Proof. induction a as [|x a IH]; simpl; [reflexivity|exact IH]. Qed.

Lemma string_snoc (s : string) (n : nat) :
  String.length s = S n ->
  exists r c, s = r ++ String c "" /\ String.length r = n.
Proof.
  revert n. induction s as [|x s IH]; intros n H; [discriminate|].
  simpl in H. injection H as H. destruct s as [|y s].
  - exists "", x. simpl in H. now subst.
  - destruct n as [|n]; [discriminate|].
    destruct (IH n H) as (r & c & -> & Hr).
    exists (String x r), c. split; [reflexivity|]. simpl. now rewrite Hr.
Qed.



(** where the forward loop stops, by the text it passes *)
Lemma forward_run (test : option ascii -> bool) (value pre run post : string) :
  value = pre ++ run ++ post ->
  string_forall (fun c => test (Some c)) run = true ->
  (post = "" \/ exists c r, post = String c r /\ test (Some c) = false) ->
  forward test value (String.length pre)
  = (String.length pre + String.length run)%nat.
Proof.
  intros Hv Hrun Hpost. unfold forward.
  assert (Hsteps : (String.length run <= String.length value)%nat).
  { rewrite Hv, !append_length. lia. }
  revert Hsteps. generalize (String.length value).
  intros steps. revert pre steps Hv Hrun.
  induction run as [|c run IH]; intros pre steps Hv _Hrun Hsteps.
  - rewrite Nat.add_0_r. destruct steps as [|steps]; [reflexivity|].
    cbn [forward_from]. cbn [append] in Hv.
    destruct Hpost as [->|(c & r & -> & Hc)].
    + rewrite Hv, append_nil_r, Nat.ltb_irrefl. reflexivity.
    + rewrite Hv, get_app, Hc, andb_false_r. reflexivity.
  - cbn [string_forall] in _Hrun. apply andb_prop in _Hrun as [Hc Hrun].
    cbn [String.length] in Hsteps.
    destruct steps as [|steps]; [lia|]. cbn [forward_from].
    assert (Hlt : (String.length pre <? String.length value)%nat = true).
    { apply Nat.ltb_lt. rewrite Hv, !append_length. cbn [String.length]. lia. }
    rewrite Hlt. cbn [append] in Hv. rewrite Hv at 1. rewrite get_app, Hc.
    cbn [andb].
    specialize (IH (pre ++ String c "") steps).
    rewrite append_length in IH. cbn [String.length] in IH.
    replace (S (String.length pre)) with (String.length pre + 1)%nat by lia.
    rewrite IH; [cbn [String.length]; lia| |exact Hrun|lia].
    rewrite Hv, append_assoc. reflexivity.
Qed.

(** where the backward loop stops, by the text it passes *)
Lemma backward_run (test : option ascii -> bool) (value pre run post : string) :
  value = pre ++ run ++ post ->
  string_forall (fun c => test (Some c)) run = true ->
  (pre = "" \/
   exists p c, pre = p ++ String c "" /\ test (Some c) = false) ->
  backward test value (String.length pre + String.length run)
  = String.length pre.
Proof.
  intros Hv Hrun Hpre.
  remember (String.length run) as n eqn:Hn. symmetry in Hn.
  revert run post Hv Hrun Hn.
  induction n as [|n IH]; intros run post Hv Hrun Hn.
  - rewrite Nat.add_0_r.
    destruct Hpre as [->|(p & c & -> & Hc)]; [reflexivity|].
    rewrite append_length. cbn [String.length].
    replace (String.length p + 1)%nat with (S (String.length p)) by lia.
    cbn [backward]. rewrite Hv, append_assoc. cbn [append].
    now rewrite get_app, Hc.
  - destruct (string_snoc run n Hn) as (r & c & -> & Hr).
    rewrite string_forall_app in Hrun. apply andb_prop in Hrun as [Hr' Hc].
    cbn [string_forall] in Hc. rewrite andb_true_r in Hc.
    replace (String.length pre + S n)%nat
      with (S (String.length pre + n)) by lia.
    cbn [backward].
    assert (Hv' : value = pre ++ r ++ String c post).
    { rewrite Hv, append_assoc. reflexivity. }
    assert (Hg : String.get (String.length pre + n) value = Some c).
    { rewrite Hv', <- Hr, <- append_length, <- append_assoc. apply get_app. }
    rewrite Hg, Hc. apply (IH r (String c post) Hv' Hr' Hr).
Qed.



Lemma JsMap_get_In (k : string) (a : action) (m : table) :
  JsMap.get k m = Some a -> In a (map snd m).
Proof.
  induction m as [|[k' v'] rest IH]; simpl; [discriminate|].
  destruct (String.eqb k' k); [intros [= ->]; now left|].
  intros H. right. now apply IH.
Qed.

(** the actions of the LyX commands that are not [math-insert] *)
Lemma convertCommand_In (cmd : string) (a : action) :
  convertCommand cmd = Some a ->
  (exists text, a = Insert text) \/ In a (map snd commandMappings).
Proof.
  unfold convertCommand. destruct (startsWith cmd "math-insert ").
  - intros [= <-]. left. now eexists.
  - intros H. right. exact (JsMap_get_In _ _ _ H).
Qed.

(** X21.  On a text control that is editable and not [contenteditable],
    an insert action replaces the selected text: the text before and
    after the selection stays, the text of the action stands where the
    selection was, the cursor is put right after it and an [input] event
    is dispatched. *)
Theorem insert_replaces_selection
    (text : string) (el : element) (pre sel post : string) :
  isEditableElement el = true ->
  isContentEditable el = false ->
  value el = pre ++ sel ++ post ->
  selectionStart el = String.length pre ->
  selectionEnd el = (String.length pre + String.length sel)%nat ->
  executeAction (Insert text) el
  = [SetValue (pre ++ text ++ post);
     setSelectionRange (String.length (pre ++ text))
                       (String.length (pre ++ text));
     DispatchInput].
Proof.
  intros He Hc Hv Hs Hend.
  cbn [executeAction]. unfold executeInsert, insertInFormField.
  rewrite He, Hc, Hv, Hs, Hend. cbn [negb].
  rewrite slice_prefix, substring_from_app2, append_length. reflexivity.
Qed.

Lemma insert_replaces_selection_witness :
  executeAction (Insert "\alpha") (textarea "x = " "a" " + 1")
  = [SetValue "x = \alpha + 1"; setSelectionRange 10 10; DispatchInput].
Proof.
  apply (insert_replaces_selection "\alpha" (textarea "x = " "a" " + 1")
           "x = " "a" " + 1"); reflexivity.
Defined.

(** X22.  On such a text control a wrap action puts [before] and [after]
    around the selected text and leaves the rest of the text as it is;
    the range it selects afterwards holds the text that was selected
    before. *)
Theorem wrap_keeps_selected_text
    (before after : string) (el : element) (pre sel post : string) :
  isEditableElement el = true ->
  isContentEditable el = false ->
  value el = pre ++ sel ++ post ->
  selectionStart el = String.length pre ->
  selectionEnd el = (String.length pre + String.length sel)%nat ->
  exists newValue newStart newEnd,
    executeAction (Wrap before after) el
    = [SetValue newValue; setSelectionRange newStart newEnd; DispatchInput] /\
    newValue = pre ++ before ++ sel ++ after ++ post /\
    slice 0 newStart newValue = pre ++ before /\
    slice newStart newEnd newValue = sel /\
    substring_from newEnd newValue = after ++ post.
Proof.
  intros He Hc Hv Hs Hend.
  exists (pre ++ before ++ sel ++ after ++ post),
         (String.length (pre ++ before)),
         (String.length (pre ++ before) + String.length sel)%nat.
  split.
  { cbn [executeAction]. unfold executeWrap, wrapSelectionInFormField.
    rewrite He, Hc, Hv, Hs, Hend. cbn [negb].
    rewrite slice_prefix, slice_middle, substring_from_app2, append_length.
    now rewrite !append_assoc. }
  split; [reflexivity|].
  rewrite <- (append_assoc pre before).
  split; [apply slice_prefix|].
  split; [apply slice_middle|apply substring_from_app2].
Qed.

Lemma wrap_keeps_selected_text_witness :
  exists newValue newStart newEnd,
    executeAction (Wrap "**" "**") (textarea "a " "bold" " word")
    = [SetValue newValue; setSelectionRange newStart newEnd; DispatchInput] /\
    newValue = "a **bold** word" /\
    slice 0 newStart newValue = "a **" /\
    slice newStart newEnd newValue = "bold" /\
    substring_from newEnd newValue = "** word".
Proof.
  apply (wrap_keeps_selected_text "**" "**" (textarea "a " "bold" " word")
           "a " "bold" " word"); reflexivity.
Defined.

(** X23.  [deleteRight] and [deleteLeft].  With a selection both remove
    the selected text and nothing else.  With none, [deleteRight] removes
    the code unit after the cursor and [deleteLeft] the one before it,
    and the cursor goes where the removed text was; at the end of the
    text, and for [deleteLeft] at its start, the text is set again
    unchanged. *)
Theorem deleteChar_removes
    (el : element) (pre sel post : string) :
  value el = pre ++ sel ++ post ->
  selectionStart el = String.length pre ->
  selectionEnd el = (String.length pre + String.length sel)%nat ->
  let removed (before after : string) :=
    [SetValue (before ++ after);
     setSelectionRange (String.length before) (String.length before);
     DispatchInput] in
  (sel <> "" ->
   executeAction (Delete "deleteRight") el = removed pre post /\
   executeAction (Delete "deleteLeft") el = removed pre post) /\
  (sel = "" ->
   executeAction (Delete "deleteRight") el
   = removed pre (substring_from 1 post) /\
   (pre = "" -> executeAction (Delete "deleteLeft") el = removed "" post) /\
   (forall p c, pre = p ++ String c "" ->
      executeAction (Delete "deleteLeft") el = removed p post)).
Proof.
  intros Hv Hs Hend removed. subst removed. cbv beta.
  cbn [executeAction]. unfold executeDelete. cbn [dispatch String.eqb
    Ascii.eqb Bool.eqb]. cbv beta iota.
  split.
  - intros Hsel.
    assert (E : (selectionStart el =? selectionEnd el)%nat = false).
    { apply Nat.eqb_neq. rewrite Hs, Hend. destruct sel; [congruence|].
      cbn [String.length]. lia. }
    unfold deleteChar. rewrite E. cbn [negb]. unfold deleteSelection.
    rewrite Hv, Hs, Hend, slice_prefix, substring_from_app2.
    split; reflexivity.
  - intros ->. cbn [append String.length] in *.
    rewrite Nat.add_0_r in Hend.
    assert (E : (selectionStart el =? selectionEnd el)%nat = true).
    { apply Nat.eqb_eq. now rewrite Hs, Hend. }
    unfold deleteChar. rewrite E. cbn [negb]. cbv beta iota zeta.
    change (0 <? 1)%Z with true. change (0 <? -1)%Z with false.
    cbv beta iota. rewrite Hv, Hs, slice_prefix.
    split; [|split].
    + f_equal. f_equal. rewrite append_length.
      destruct post as [|c post].
      * rewrite append_nil_r. cbn [String.length].
        rewrite Nat.add_0_r, Nat.min_r by lia.
        pose proof (substring_from_app pre "") as H.
        rewrite append_nil_r in H. rewrite H. reflexivity.
      * cbn [String.length]. rewrite Nat.min_l by lia.
        change (String c post) with (String c "" ++ post).
        change (String.length pre + 1)%nat
          with (String.length pre + String.length (String c ""))%nat.
        rewrite substring_from_app2. reflexivity.
    + intros ->. cbn [String.length append]. reflexivity.
    + intros p c ->. rewrite append_length. cbn [String.length].
      replace (Z.to_nat (Z.max (Z.of_nat (String.length p + 1) - 1) 0))
        with (String.length p) by lia.
      rewrite append_assoc. rewrite slice_prefix.
      rewrite <- append_assoc.
      change (String.length p + 1)%nat
        with (String.length p + String.length (String c ""))%nat.
      rewrite <- append_length, substring_from_app. reflexivity.
Qed.

Lemma deleteChar_removes_witness :
  executeAction (Delete "deleteLeft") (textarea "ab" "" "cd")
  = [SetValue "acd"; setSelectionRange 1 1; DispatchInput].
Proof.
  pose proof (deleteChar_removes (textarea "ab" "" "cd") "ab" "" "cd"
                eq_refl eq_refl eq_refl) as H.
  exact (proj2 (proj2 (proj2 H eq_refl)) "a" "b"%char eq_refl).
Defined.


(** X25.  [deleteLineForward] removes the text from the start of the
    selection up to the next line feed or the end of the text, leaves the
    line feed in place and puts the cursor where the removed text began;
    where the selection ends plays no part. *)
Theorem deleteToLineEnd_removes_rest_of_line
    (el : element) (pre line post : string) :
  value el = pre ++ line ++ post ->
  selectionStart el = String.length pre ->
  newline_free line = true ->
  (post = "" \/ exists rest, post = String "010"%char rest) ->
  executeAction (Delete "deleteLineForward") el
  = [SetValue (pre ++ post);
     setSelectionRange (String.length pre) (String.length pre);
     DispatchInput].
Proof.
  intros Hv Hs Hline Hpost.
  cbn [executeAction]. unfold executeDelete. cbn [dispatch String.eqb
    Ascii.eqb Bool.eqb]. cbv beta iota.
  unfold deleteToLineEnd. rewrite Hs.
  rewrite (forward_run not_newline (value el) pre line post Hv).
  - now rewrite Hv, slice_prefix, substring_from_app2.
  - exact Hline.
  - destruct Hpost as [->|[rest ->]]; [now left|right].
    exists "010"%char, rest. split; reflexivity.
Qed.

Lemma deleteToLineEnd_removes_rest_of_line_witness :
  executeAction (Delete "deleteLineForward")
    (textarea "one " "t" ("wo" ++ nl ++ "three"))
  = [SetValue ("one " ++ nl ++ "three"); setSelectionRange 4 4;
     DispatchInput].
Proof.
  apply (deleteToLineEnd_removes_rest_of_line
           (textarea "one " "t" ("wo" ++ nl ++ "three"))
           "one " "two" (nl ++ "three")); try reflexivity.
  right. now exists "three".
Defined.

Lemma ascii_word_non_space (w : string) :
  ascii_word w = true ->
  string_forall (fun c => negb (is_space c)) w = true.
Proof.
  unfold ascii_word. induction w as [|c w IH]; [reflexivity|].
  cbn [string_forall]. intros H. apply andb_prop in H as [Hc Hw].
  apply andb_prop in Hc as [_ Hc]. now rewrite Hc, IH.
Qed.

(** X26.  Word motion to the right, on text in ASCII, where the white
    space of the pattern is that of [is_space].  From the start of the
    selection [moveWordRight] passes the characters that are not white
    space and then the white space that follows, and [deleteWordRight]
    removes what [moveWordRight] passes and leaves the cursor in place. *)
Theorem word_right (el : element) (pre word gap post : string) :
  value el = pre ++ word ++ gap ++ post ->
  selectionStart el = String.length pre ->
  ascii_word word = true ->
  all_space gap = true ->
  (post = "" \/
   gap <> "" /\
   exists c rest,
     post = String c rest /\ is_ascii c = true /\ is_space c = false) ->
  executeAction (Navigation "moveWordRight") el
  = [setSelectionRange (String.length (pre ++ word ++ gap))
                       (String.length (pre ++ word ++ gap))] /\
  executeAction (Delete "deleteWordRight") el
  = [SetValue (pre ++ post);
     setSelectionRange (String.length pre) (String.length pre);
     DispatchInput].
Proof.
  intros Hv Hs Hword Hgap Hpost.
  apply ascii_word_non_space in Hword.
  assert (Hb : word_boundary (value el) 1 (String.length pre)
               = String.length (pre ++ word ++ gap)).
  { unfold word_boundary. change (0 <? 1)%Z with true. cbv iota.
    rewrite (forward_run non_whitespace (value el) pre word (gap ++ post) Hv
               Hword).
    - rewrite <- append_length.
      rewrite (forward_run whitespace (value el) (pre ++ word) gap post).
      + now rewrite <- !append_length, append_assoc.
      + now rewrite Hv, append_assoc.
      + exact Hgap.
      + destruct Hpost as [->|(_ & c & rest & -> & _ & Hc)];
          [now left|right].
        exists c, rest. now split.
    - destruct gap as [|g gap].
      + cbn [append]. destruct Hpost as [->|(Hne & _)]; [now left|].
        now contradiction Hne.
      + right. exists g, (gap ++ post). split; [reflexivity|].
        unfold all_space in Hgap. cbn [string_forall] in Hgap.
        apply andb_prop in Hgap as [Hg _]. cbn [non_whitespace].
        now rewrite Hg. }
  cbn [executeAction]. unfold executeNavigation, executeDelete.
  cbn [dispatch String.eqb Ascii.eqb Bool.eqb]. cbv beta iota.
  unfold moveWord, deleteWord. rewrite Hs, Hb.
  split; [reflexivity|].
  assert (Hle : (String.length pre <= String.length (pre ++ word ++ gap))%nat)
    by (rewrite !append_length; lia).
  rewrite Nat.min_l, Nat.max_r by exact Hle.
  rewrite Hv, slice_prefix.
  replace (pre ++ word ++ gap ++ post) with ((pre ++ word ++ gap) ++ post)
    by (now rewrite !append_assoc).
  now rewrite substring_from_app.
Qed.

Lemma word_right_witness :
  executeAction (Delete "deleteWordRight") (textarea "to " "" "be  or not")
  = [SetValue "to or not"; setSelectionRange 3 3; DispatchInput].
Proof.
  refine (proj2 (word_right (textarea "to " "" "be  or not")
                   "to " "be" "  " "or not" eq_refl eq_refl eq_refl eq_refl
                   _)).
  right. split; [discriminate|].
  exists "o"%char, "r not". repeat split; reflexivity.
Defined.

(** X27.  Word motion to the left, on text in ASCII.  From the start of
    the selection [moveWordLeft] passes back over the white space and
    then over the characters before it that are not white space, and
    [deleteWordLeft] removes what [moveWordLeft] passes and puts the
    cursor where that began. *)
Theorem word_left (el : element) (pre word gap post : string) :
  value el = pre ++ word ++ gap ++ post ->
  selectionStart el = String.length (pre ++ word ++ gap) ->
  ascii_word word = true ->
  all_space gap = true ->
  (pre = "" \/
   word <> "" /\ exists p c, pre = p ++ String c "" /\ is_space c = true) ->
  executeAction (Navigation "moveWordLeft") el
  = [setSelectionRange (String.length pre) (String.length pre)] /\
  executeAction (Delete "deleteWordLeft") el
  = [SetValue (pre ++ post);
     setSelectionRange (String.length pre) (String.length pre);
     DispatchInput].
Proof.
  intros Hv Hs Hword Hgap Hpre.
  apply ascii_word_non_space in Hword.
  assert (Hb : word_boundary (value el) (-1)
                 (String.length (pre ++ word ++ gap))
               = String.length pre).
  { unfold word_boundary. change (0 <? -1)%Z with false. cbv iota.
    rewrite <- (append_assoc pre word gap), (append_length (pre ++ word)).
    rewrite (backward_run whitespace (value el) (pre ++ word) gap post).
    - rewrite append_length.
      apply (backward_run non_whitespace (value el) pre word (gap ++ post)
               Hv Hword).
      destruct Hpre as [->|(_ & p & c & -> & Hc)]; [now left|right].
      exists p, c. split; [reflexivity|]. cbn [non_whitespace].
      now rewrite Hc.
    - now rewrite Hv, append_assoc.
    - exact Hgap.
    - destruct (String.length word) as [|n] eqn:Hn.
      + destruct word; [|discriminate]. rewrite append_nil_r.
        destruct Hpre as [->|(Hne & _)]; [now left|].
        now contradiction Hne.
      + destruct (string_snoc word n Hn) as (r & c & -> & _).
        right. exists (pre ++ r), c. split; [now rewrite append_assoc|].
        rewrite string_forall_app in Hword.
        apply andb_prop in Hword as [_ Hc]. cbn [string_forall] in Hc.
        rewrite andb_true_r in Hc. cbn [whitespace].
        now apply negb_true_iff in Hc. }
  cbn [executeAction]. unfold executeNavigation, executeDelete.
  cbn [dispatch String.eqb Ascii.eqb Bool.eqb]. cbv beta iota.
  unfold moveWord, deleteWord. rewrite Hs, Hb.
  split; [reflexivity|].
  assert (Hle : (String.length pre <= String.length (pre ++ word ++ gap))%nat)
    by (rewrite !append_length; lia).
  rewrite Nat.min_r, Nat.max_l by exact Hle.
  rewrite Hv, slice_prefix.
  replace (pre ++ word ++ gap ++ post) with ((pre ++ word ++ gap) ++ post)
    by (now rewrite !append_assoc).
  now rewrite substring_from_app.
Qed.

Lemma word_left_witness :
  executeAction (Delete "deleteWordLeft") (textarea "to be  " "" "or not")
  = [SetValue "to or not"; setSelectionRange 3 3; DispatchInput].
Proof.
  refine (proj2 (word_left (textarea "to be  " "" "or not")
                   "to " "be" "  " "or not" eq_refl eq_refl eq_refl eq_refl
                   _)).
  right. split; [discriminate|].
  exists "to", " "%char. split; reflexivity.
Defined.

(** X28.  The selection actions do nothing.  [executeSelection] hands the
    action to [executeNavigation], whose table has none of the names that
    the parser gives to selection actions: whatever the element, no call
    is made on it. *)
Theorem selection_actions_do_nothing
    (cmd act : string) (el : element) :
  convertCommand cmd = Some (Selection act) ->
  executeAction (Selection act) el = [].
Proof.
  intros H. apply convertCommand_In in H as [[text H]|H]; [discriminate|].
  cbn [map snd commandMappings] in H.
  repeat (destruct H as [H|H]; [try discriminate H|]).
  all: try (injection H as <-; reflexivity).
  destruct H.
Qed.

Lemma selection_actions_do_nothing_witness :
  convertCommand "word-right-select" = Some (Selection "selectWordRight") /\
  executeAction (Selection "selectWordRight") (textarea "to " "" "be")
  = [].
Proof.
  split; [reflexivity|].
  apply (selection_actions_do_nothing "word-right-select" "selectWordRight"
           (textarea "to " "" "be")).
  reflexivity.
Defined.



End ActionExecutorFacts.
